(** * Tournament WebSocket server: broadcast core, spool poller and Redis startup

    Shallow embedding of [src/websocket-server.js] (the resilient deployment
    variant, called "main" below) and of [src/unnamed/part_000] (the
    Railway/Upstash variant, called "p0").  The program runs on the single
    Node.js event loop, so every handler body runs to completion: the
    process is a state record and each handler is one step on it.

    Modelling choices, all following the source:
    - a client socket is identified by a [nat]; [clients] is the JS [Set]
      as a duplicate-free list in insertion order (the order [for ... of]
      visits it);
    - each socket's [readyState] lives in a [gmap nat ReadyState];
    - [ws.send] appends [(client, message)] to a global [wire] log; whether
      one synchronous [send] throws is an input of the environment (the list
      [fails] of sockets whose [send] throws during the call);
    - the message sent is the event value that [JSON.stringify] serialises
      once per broadcast, so the wire records [Json] values;
    - [JSON.parse] is a library function: it is a parameter [JSON_parse];
    - [processedFiles] is a [gset string]; the spool directory is a list of
      files in [readdirSync] order, which the external producer writes;
    - [Date.now()] is read once per poll tick. *)

From Stdlib Require Import ZArith QArith_base Lia.
From stdpp Require Import base list gmap sets strings.


#[local] Set Warnings "-register-all".

(** ** JSON values and Event Envelopes *)

Inductive Json : Type :=
| JNull
| JBool (b : bool)
| JNum (n : Z)
| JStr (s : string)
| JArr (xs : list Json)
| JObj (fields : list (string * Json)).

(** The greeting of [wss.on('connection')] (both variants, lines 51-54 / 46-49). *)
Definition connected_envelope : Json :=
  JObj [("event", JStr "connected");
        ("payload", JObj [("message", JStr "Connected to tournament WebSocket server")])].

(** [event.event]: a property read that throws a [TypeError] on [null]
    (JSON.parse never yields [undefined]); [None] models the throw. *)
Definition read_event_field (v : Json) : option unit :=
  match v with
  | JNull => None
  | _ => Some tt
  end.

(** Own property [k] of a parsed object: [JSON.parse] keeps the last of
    duplicate keys; [None] is [undefined]. *)
Definition get_field (k : string) (kvs : list (string * Json)) : option Json :=
  fold_left (fun acc kv => if String.eqb kv.1 k then Some kv.2 else acc) kvs None.

(** Whether [ToString] (a template literal) throws a [TypeError] on a parsed
    value.  Primitives convert.  An object with an own [toString] key
    shadows [Object.prototype.toString] by a non-callable value, and the
    [valueOf] fallback yields no primitive (an own [valueOf] is not callable
    either, the inherited one returns the object), so it throws; any other
    object gives "[object Object]".  An array converts through [join],
    which converts each element that is not [null]. *)
Fixpoint to_string_throws (v : Json) : bool :=
  match v with
  | JObj kvs => existsb (fun kv => String.eqb kv.1 "toString") kvs
  | JArr xs => existsb to_string_throws xs
  | _ => false
  end.

(** [`${event.event}`] on a non-null [event]: [event.event] is [undefined]
    unless [event] is an object with an own [event] key. *)
Definition event_to_string_throws (event : Json) : bool :=
  match event with
  | JObj kvs => match get_field "event" kvs with
                | Some v => to_string_throws v
                | None => false
                end
  | _ => false
  end.

(** Line 72 of the main [broadcast], [`Event: ${event.event}`], throws
    before the loop: on [null], and when the field does not convert. *)
Definition broadcast_throws (event : Json) : bool :=
  match read_event_field event with
  | None => true
  | Some _ => event_to_string_throws event
  end.

(** ** Sockets *)

Inductive ReadyState := CONNECTING | OPEN | CLOSING | CLOSED.

Definition ReadyState_eqb (a b : ReadyState) : bool :=
  match a, b with
  | CONNECTING, CONNECTING | OPEN, OPEN | CLOSING, CLOSING | CLOSED, CLOSED => true
  | _, _ => false
  end.

(** Log lines the handlers print that the claims talk about. *)
Inductive LogEntry :=
| LBroadcast (v : Json) (sent failed : nat)  (* "Broadcast complete" summary *)
| LSendError (c : nat)                      (* "Failed to send to client" *)
| LNotReady (c : nat)                       (* "Client not ready" *)
| LRedisParseError (raw : string)           (* "Redis message parse error" *)
| LFileEvent (f : string)                   (* "File event" (file read and decoded) *)
| LFileError (f : string)                   (* "File event error" *)
| LDirError                                 (* "Directory watch error" *)
| LListDir                                  (* call of [fs.readdirSync] *)
| LReadFile (f : string)                    (* call of [fs.readFileSync] *)
| LUnlinkFile (f : string).                 (* call of [fs.unlinkSync] *)

(** One spool file: its [mtimeMs], the result of [readFileSync]
    ([None]: the read throws) and whether it can be deleted. *)
Record FileRec := mkFile {
  mtimeMs : Z;
  contents : option string;
  removable : bool;  (* [fs.unlinkSync] succeeds (false: EPERM, EBUSY) *)
}.

(** Where the [async startRedis()] body (lines 101-163) is suspended. *)
Inductive RedisPc :=
| RDisabled          (* [!REDIS_ENABLED]: returned at once *)
| RAwaitClient       (* [await redisClient.connect()] *)
| RAwaitSubscriber   (* [await redisSubscriber.connect()] *)
| RAwaitSubscribe    (* [await redisSubscriber.subscribe(...)] *)
| RSubscribed        (* body finished normally *)
| RFailed.           (* body left through [catch] *)

(** The whole process state of the main variant. *)
Record State := mkState {
  clients : list nat;
  ready : gmap nat ReadyState;
  wire : list (nat * Json);
  redisAvailable : bool;
  redisPc : RedisPc;
  processedFiles : gset string;
  spool : option (list (string * FileRec));  (* [None]: readdirSync throws *)
  logs : list LogEntry;
}.

(** [client.readyState]. *)
Definition state_of (rs : gmap nat ReadyState) (c : nat) : ReadyState :=
  match rs !! c with Some r => r | None => CLOSED end.

(** ** Broadcast, main variant (websocket-server.js lines 66-93) *)

Section Broadcast.
Variable fails : list nat.
Variable message : Json.

(** The [for (const client of clients)] loop: [(wire, sent, failed, logs)]. *)
Fixpoint broadcast_loop (rs : gmap nat ReadyState) (cs : list nat)
    (w : list (nat * Json)) (sent failed : nat) (lg : list LogEntry)
    : list (nat * Json) * nat * nat * list LogEntry :=
  match cs with
  | [] => (w, sent, failed, lg)
  | client :: rest =>
      if ReadyState_eqb (state_of rs client) OPEN then
        if bool_decide (client ∈ fails) then
          (* [client.send] threw: caught, [failed++] *)
          broadcast_loop rs rest w sent (S failed) (lg ++ [LSendError client])
        else broadcast_loop rs rest (w ++ [(client, message)]) (S sent) failed lg
      else broadcast_loop rs rest w sent (S failed) (lg ++ [LNotReady client])
  end.

End Broadcast.

(** The state after a call of [broadcast]; when line 72 throws
    ([broadcast_throws event]) the call changes nothing and the exception
    reaches the caller. *)
Definition broadcast (fails : list nat) (event : Json) (s : State) : State :=
  if broadcast_throws event then s
  else
  match broadcast_loop fails event (ready s) (clients s) (wire s) 0 0 (logs s) with
  | (w, sent, failed, lg) =>
      mkState (clients s) (ready s) w (redisAvailable s) (redisPc s)
              (processedFiles s) (spool s) (lg ++ [LBroadcast event sent failed])
  end.

(** ** Broadcast, p0 variant (part_000 lines 61-69): no [try]; a throwing
    [send] leaves the loop with an exception.  The result is the wire so
    far, tagged [inl] when the exception escapes. *)

Fixpoint broadcast_p0_loop (fails : list nat) (message : Json)
    (rs : gmap nat ReadyState) (cs : list nat) (w : list (nat * Json))
    : list (nat * Json) + list (nat * Json) :=
  match cs with
  | [] => inr w
  | client :: rest =>
      if ReadyState_eqb (state_of rs client) OPEN then
        if bool_decide (client ∈ fails) then inl w
        else broadcast_p0_loop fails message rs rest (w ++ [(client, message)])
      else broadcast_p0_loop fails message rs rest w
  end.

Definition broadcast_p0 (fails : list nat) (event : Json)
    (cs : list nat) (rs : gmap nat ReadyState) (w : list (nat * Json))
    : list (nat * Json) + list (nat * Json) :=
  broadcast_p0_loop fails event rs cs w.

(** ** State updates *)

Definition add_log (e : LogEntry) (s : State) : State :=
  mkState (clients s) (ready s) (wire s) (redisAvailable s) (redisPc s)
          (processedFiles s) (spool s) (logs s ++ [e]).

Definition set_processed (p : gset string) (s : State) : State :=
  mkState (clients s) (ready s) (wire s) (redisAvailable s) (redisPc s)
          p (spool s) (logs s).

(** The first directory entry named [f]. *)
Fixpoint find_file (f : string) (dir : list (string * FileRec)) : option FileRec :=
  match dir with
  | [] => None
  | (n, r) :: rest => if bool_decide (n = f) then Some r else find_file f rest
  end.

(** [fs.statSync(filePath)]. *)
Definition stat_file (s : State) (file : string) : option FileRec :=
  match spool s with
  | None => None
  | Some dir => find_file file dir
  end.

(** Whether [fs.unlinkSync(filePath)] returns: the file exists and can be
    deleted; otherwise it throws. *)
Definition unlink_ok (s : State) (file : string) : bool :=
  match stat_file s file with Some r => removable r | None => false end.

(** [fs.unlinkSync(filePath)] when it returns. *)
Definition unlink_file (file : string) (s : State) : State :=
  mkState (clients s) (ready s) (wire s) (redisAvailable s) (redisPc s)
          (processedFiles s)
          (match spool s with
           | None => None
           | Some dir => Some (filter (fun e => e.1 <> file) dir)
           end)
          (logs s ++ [LUnlinkFile file]).

(** [f.startsWith('tournament_') && f.endsWith('.json')] *)
Definition starts_with (pre s : string) : bool := String.prefix pre s.

Definition ends_with (suf s : string) : bool :=
  let n := String.length s in
  let m := String.length suf in
  (Nat.leb m n && String.eqb (String.substring (n - m) m s) suf)%bool.

Definition is_event_file (f : string) : bool :=
  (starts_with "tournament_" f && ends_with ".json" f)%bool.

(** ** Process (main variant) *)

Section Process.
Variable JSON_parse : string -> option Json.

(** The Redis subscription callback (lines 138-155). *)
Definition on_redis_message (fails : list nat) (message : string) (s : State) : State :=
  match JSON_parse message with
  | None => add_log (LRedisParseError message) s
  | Some event =>
      match read_event_field event with
      | None => add_log (LRedisParseError message) s
      | Some _ =>
          if broadcast_throws event then add_log (LRedisParseError message) s
          else broadcast fails event s
      end
  end.

(** One iteration of [for (const file of files)] (lines 184-207);
    [Date.now()] is [now] for the whole tick. *)
Definition scan_file (fails : list nat) (now : Z) (s : State) (file : string) : State :=
  if bool_decide (file ∈ processedFiles s) then s
  else
    let s1 := set_processed ({[file]} ∪ processedFiles s) s in
    match stat_file s1 file with
    | None => add_log (LFileError file) s1
    | Some stats =>
        if (now - mtimeMs stats <? 50)%Z then
          set_processed (processedFiles s1 ∖ {[file]}) s1
        else
          let s2 := add_log (LReadFile file) s1 in
          match contents stats with
          | None => add_log (LFileError file) s2
          | Some raw =>
              match JSON_parse raw with
              | None => add_log (LFileError file) s2
              | Some event =>
                  match read_event_field event with
                  | None => add_log (LFileError file) s2
                  | Some _ =>
                      let s3 := add_log (LFileEvent file) s2 in
                      if broadcast_throws event then add_log (LFileError file) s3
                      else
                        let s4 := broadcast fails event s3 in
                        if unlink_ok s4 file then unlink_file file s4
                        else add_log (LFileError file) (add_log (LUnlinkFile file) s4)
                  end
              end
          end
    end.

Fixpoint scan_files (fails : list nat) (now : Z) (files : list string) (s : State) : State :=
  match files with
  | [] => s
  | file :: rest => scan_files fails now rest (scan_file fails now s file)
  end.

(** The [setInterval] callback (lines 177-211). *)
Definition poll_tick (fails : list nat) (now : Z) (s : State) : State :=
  if redisAvailable s then s
  else
    match spool s with
    | None => add_log LDirError (add_log LListDir s)
    | Some dir =>
        scan_files fails now (filter (fun f => is_event_file f = true) (map fst dir))
                   (add_log LListDir s)
    end.

(** The Redis subscription callback of the p0 variant (part_000 lines
    94-102), over the registry, the ready states and the wire; the flag
    says whether the [catch] ("Invalid Redis message") ran.  Line 97,
    [`Redis event: ${event.event}`], throws on [null] and when the field
    does not convert. *)
Definition on_redis_message_p0 (fails : list nat) (message : string)
    (cs : list nat) (rs : gmap nat ReadyState) (w : list (nat * Json))
    : list (nat * Json) * bool :=
  match JSON_parse message with
  | None => (w, true)
  | Some event =>
      match read_event_field event with
      | None => (w, true)
      | Some _ =>
          if event_to_string_throws event then (w, true)
          else
            match broadcast_p0 fails event cs rs w with
            | inl w' => (w', true)
            | inr w' => (w', false)
            end
      end
  end.

(** [clients.add(ws)] and [clients.delete(ws)] on the JS [Set]. *)
Definition set_add (c : nat) (cs : list nat) : list nat :=
  if bool_decide (c ∈ cs) then cs else cs ++ [c].

Definition set_delete (c : nat) (cs : list nat) : list nat :=
  filter (fun x => x <> c) cs.

(** [wss.on('connection')] (lines 47-54): the handshake has left the socket
    [OPEN]; the handler registers it and sends the greeting. *)
Definition on_connection (ws : nat) (s : State) : State :=
  mkState (set_add ws (clients s)) (<[ws := OPEN]> (ready s))
          (wire s ++ [(ws, connected_envelope)])
          (redisAvailable s) (redisPc s) (processedFiles s) (spool s) (logs s).

(** The socket starts its closing handshake: transport state only. *)
Definition on_closing (ws : nat) (s : State) : State :=
  mkState (clients s) (<[ws := CLOSING]> (ready s)) (wire s)
          (redisAvailable s) (redisPc s) (processedFiles s) (spool s) (logs s).

(** [ws.on('close')] (lines 56-59): the socket is [CLOSED]. *)
Definition on_close (ws : nat) (s : State) : State :=
  mkState (set_delete ws (clients s)) (<[ws := CLOSED]> (ready s)) (wire s)
          (redisAvailable s) (redisPc s) (processedFiles s) (spool s) (logs s).

(** [ws.on('error')] (lines 61-63). *)
Definition on_socket_error (ws : nat) (s : State) : State :=
  mkState (set_delete ws (clients s)) (ready s) (wire s)
          (redisAvailable s) (redisPc s) (processedFiles s) (spool s) (logs s).

(** The external producer writes (or rewrites) a spool file. *)
Definition write_file (f : string) (r : FileRec) (s : State) : State :=
  mkState (clients s) (ready s) (wire s) (redisAvailable s) (redisPc s)
          (processedFiles s)
          (match spool s with
           | None => None
           | Some dir =>
               Some (if bool_decide (f ∈ map fst dir)
                     then map (fun e => if bool_decide (e.1 = f) then (f, r) else e) dir
                     else dir ++ [(f, r)])
           end)
          (logs s).

(** Outcomes the broker connections deliver to [startRedis]. *)
Inductive RedisEvent :=
| RClientConnected (ok : bool)       (* [redisClient.connect()] settles *)
| RSubscriberConnected (ok : bool)   (* [redisSubscriber.connect()] settles *)
| RSubscribeSettled (ok : bool)      (* [redisSubscriber.subscribe(...)] settles *)
| RClientError                       (* [redisClient.on('error')] *)
| RSubscriberError.                  (* [redisSubscriber.on('error')] *)

Definition set_redis (pc : RedisPc) (flag : bool) (s : State) : State :=
  mkState (clients s) (ready s) (wire s) flag pc (processedFiles s) (spool s) (logs s).

(** [startRedis] resumed at its [await]s (lines 131-162), and the two
    [on('error')] handlers (lines 121-129), which exist once the clients
    were created. *)
Definition redis_step (ev : RedisEvent) (s : State) : State :=
  match redisPc s, ev with
  | RAwaitClient, RClientConnected true => set_redis RAwaitSubscriber (redisAvailable s) s
  | RAwaitSubscriber, RSubscriberConnected true => set_redis RAwaitSubscribe true s
  | RAwaitSubscribe, RSubscribeSettled true => set_redis RSubscribed (redisAvailable s) s
  | RAwaitClient, RClientConnected false
  | RAwaitSubscriber, RSubscriberConnected false
  | RAwaitSubscribe, RSubscribeSettled false => set_redis RFailed false s
  | RDisabled, _ => s
  | pc, (RClientError | RSubscriberError) => set_redis pc false s
  | _, _ => s
  end.

(** Everything the event loop can run. *)
Inductive Event :=
| EConnect (ws : nat)
| EClosing (ws : nat)
| EClose (ws : nat)
| ESocketError (ws : nat)
| ERedisMessage (message : string) (fails : list nat)
| ETick (now : Z) (fails : list nat)
| ERedis (r : RedisEvent)
| EWrite (f : string) (r : FileRec).

Definition step (ev : Event) (s : State) : State :=
  match ev with
  | EConnect ws => on_connection ws s
  | EClosing ws => on_closing ws s
  | EClose ws => on_close ws s
  | ESocketError ws => on_socket_error ws s
  | ERedisMessage message fails =>
      match redisPc s with
      | RSubscribed => on_redis_message fails message s
      | _ => s
      end
  | ETick now fails => poll_tick fails now s
  | ERedis r => redis_step r s
  | EWrite f r => write_file f r s
  end.

Fixpoint run (tr : list Event) (s : State) : State :=
  match tr with
  | [] => s
  | ev :: rest => run rest (step ev s)
  end.

End Process.

(** Process start: [startRedis()] runs up to its first [await]; the event
    directory exists or not ([None]). *)
Definition init (REDIS_ENABLED : bool) (dir : option (list (string * FileRec))) : State :=
  mkState [] ∅ [] false (if REDIS_ENABLED then RAwaitClient else RDisabled) ∅ dir [].

(** The messages one client has received, in order. *)
Definition received (c : nat) (w : list (nat * Json)) : list Json :=
  map snd (filter (fun e => e.1 = c) w).

(** Whether an event is a lifecycle event of socket [c]. *)
Definition touches (c : nat) (ev : Event) : bool :=
  match ev with
  | EConnect ws | EClosing ws | EClose ws | ESocketError ws => Nat.eqb ws c
  | _ => false
  end.

(** Whether an event runs socket [c]'s [close] or [error] handler, the two
    places that call [clients.delete(ws)]. *)
Definition leaves (c : nat) (ev : Event) : bool :=
  match ev with
  | EClose ws | ESocketError ws => Nat.eqb ws c
  | _ => false
  end.

(** A toy [JSON.parse] for concrete runs: the texts [ev_a] and [ev_b] stand
    for two envelopes, [null] parses to [null], every other text throws. *)
Definition demo_parse (raw : string) : option Json :=
  if String.eqb raw "ev_a" then Some (JObj [("event", JStr "a")])
  else if String.eqb raw "ev_b" then Some (JObj [("event", JStr "b")])
  else if String.eqb raw "null" then Some JNull
  else None.

Definition envA : Json := JObj [("event", JStr "a")].
Definition envB : Json := JObj [("event", JStr "b")].

(** The events that run a connection lifecycle handler. *)
Definition lifecycle (ev : Event) : bool :=
  match ev with
  | EConnect _ | EClose _ | ESocketError _ => true
  | _ => false
  end.

(** Two open sockets, 1 and 2. *)
Definition rs12 : gmap nat ReadyState := <[1%nat := OPEN]> (<[2%nat := OPEN]> ∅).

(** [REDIS_RETRY_INTERVAL] (line 34) and the [reconnectStrategy] handed to
    the Redis client (lines 114-115): the delay in ms before retry
    number [retries]. *)
Definition REDIS_RETRY_INTERVAL : Z := 5000.

Definition reconnectStrategy (retries : Z) : Z :=
  Z.min (retries * REDIS_RETRY_INTERVAL) 30000.

(** Number of log entries selected by [q]. *)
Definition count_entries (q : LogEntry -> bool) (lg : list LogEntry) : nat :=
  length (filter (fun x => q x = true) lg).

(** [fs.readFileSync] of file [f]. *)
Definition is_read (f : string) (x : LogEntry) : bool :=
  match x with LReadFile g => bool_decide (g = f) | _ => false end.

(** "File event" of file [f]: its envelope is about to be broadcast. *)
Definition is_file_event (f : string) (x : LogEntry) : bool :=
  match x with LFileEvent g => bool_decide (g = f) | _ => false end.

(** The event does not accept socket [c] (again). *)
Definition no_connect (c : nat) (ev : Event) : bool :=
  match ev with EConnect ws => negb (Nat.eqb ws c) | _ => true end.

(** Event [ev], run in state [s], leaves the spool file [f] written as [r]
    alone and lets no scan see it aged: a poll tick either finds the flag
    set (no scan) or scans while [f] is within the grace window, and the
    producer does not rewrite [f]. *)
Definition before_aging_ev (f : string) (r : FileRec) (s : State) (ev : Event) : bool :=
  match ev with
  | ETick now _ => (redisAvailable s || (now - mtimeMs r <? 50)%Z)%bool
  | EWrite g _ => negb (String.eqb g f)
  | _ => true
  end.

Fixpoint before_aging (P : string -> option Json) (f : string) (r : FileRec)
    (tr : list Event) (s : State) : bool :=
  match tr with
  | [] => true
  | ev :: rest => (before_aging_ev f r s ev && before_aging P f r rest (step P ev s))%bool
  end.

(** ** Configuration (websocket-server.js lines 20-28) *)

(** A JS number: [NaN], an infinity, or a finite value. *)
Inductive JsNumber := NaN | Infinity (negative : bool) | Finite (q : Q).

(** [Boolean(n)]: false exactly on [NaN] and on (signed) zero. *)
Definition num_truthy (n : JsNumber) : bool :=
  match n with NaN => false | Infinity _ => true | Finite q => negb (Qeq_bool q 0) end.

(** [Boolean(s)] on a string: false exactly on the empty string. *)
Definition str_truthy (s : string) : bool := negb (String.eqb s "").

Section Config.
(** The global [Number] conversion of a string. *)
Variable Number : string -> JsNumber.

(** [Number(process.env.WEBSOCKET_PORT) || 8081]; [Number(undefined)] is [NaN]. *)
Definition PORT (env_port : option string) : JsNumber :=
  let n := match env_port with Some v => Number v | None => NaN end in
  if num_truthy n then n else Finite 8081.

(** [process.env.REDIS_HOST || '127.0.0.1'] *)
Definition REDIS_HOST (env_host : option string) : string :=
  match env_host with
  | Some h => if str_truthy h then h else "127.0.0.1"
  | None => "127.0.0.1"
  end.

(** [process.env.REDIS_PORT ? Number(process.env.REDIS_PORT) : 6379] *)
Definition REDIS_PORT (env_port : option string) : JsNumber :=
  match env_port with
  | Some v => if str_truthy v then Number v else Finite 6379
  | None => Finite 6379
  end.

(** [Boolean(REDIS_HOST && REDIS_PORT)] *)
Definition REDIS_ENABLED (env_host env_port : option string) : bool :=
  (str_truthy (REDIS_HOST env_host) && num_truthy (REDIS_PORT env_port))%bool.
End Config.

(** The sockets one [broadcast] call writes to: [OPEN] and not throwing. *)
Definition deliverable (fails : list nat) (rs : gmap nat ReadyState) (c : nat) : Prop :=
  ReadyState_eqb (state_of rs c) OPEN = true /\ c ∉ fails.

(** The sockets one [broadcast] call writes to, in order: none when line
    72 throws. *)
Definition targets (fails : list nat) (e : Json) (rs : gmap nat ReadyState)
    (cs : list nat) : list nat :=
  if broadcast_throws e then [] else filter (deliverable fails rs) cs.

(** A log entry that says file [f] was read, broadcast or deleted. *)
Definition file_entry (f : string) (x : LogEntry) : Prop :=
  x = LReadFile f \/ x = LUnlinkFile f \/ x = LFileEvent f.

(** [s'] follows [s] by work on file [g] only. *)
Definition scan_ok (g : string) (s s' : State) : Prop :=
  clients s' = clients s /\ ready s' = ready s /\
  redisAvailable s' = redisAvailable s /\ redisPc s' = redisPc s /\
  (exists dw, wire s' = wire s ++ dw /\ Forall (fun x => x.1 ∈ clients s) dw) /\
  (exists d, logs s' = logs s ++ d /\ forall f x, f <> g -> x ∈ d -> ~ file_entry f x) /\
  (forall f, f <> g -> stat_file s' f = stat_file s f /\
                       (f ∈ processedFiles s' <-> f ∈ processedFiles s)).

(** [s'] follows [s] without touching the registry, the sockets or the
    Redis state; the wire and the logs only grow, and only registered
    clients get messages. *)
Definition frame (s s' : State) : Prop :=
  clients s' = clients s /\ ready s' = ready s /\
  redisAvailable s' = redisAvailable s /\ redisPc s' = redisPc s /\
  (exists dw, wire s' = wire s ++ dw /\ Forall (fun x => x.1 ∈ clients s) dw) /\
  (exists d, logs s' = logs s ++ d).

(** Invariant of [startRedis]: the flag is only true after both connects. *)
Definition redis_inv (s : State) : Prop :=
  redisAvailable s = false \/ redisPc s = RAwaitSubscribe \/ redisPc s = RSubscribed.

(** The flag is off after both broker connections were made. *)
Definition redis_down (s : State) : Prop :=
  redisAvailable s = false /\
  (redisPc s = RAwaitSubscribe \/ redisPc s = RSubscribed \/ redisPc s = RFailed).

(** Invariant: file [f] was read at most once and announced at most once,
    and not at all while it is outside the Processed-File Set. *)
Definition read_once (f : string) (s : State) : Prop :=
  (f ∉ processedFiles s ->
   count_entries (is_read f) (logs s) = 0 /\ count_entries (is_file_event f) (logs s) = 0) /\
  count_entries (is_read f) (logs s) <= 1 /\ count_entries (is_file_event f) (logs s) <= 1.

(** Membership in a list computed from a concrete run. *)
Ltac in_by_compute :=
  match goal with |- ?x ∈ ?l => apply (bool_decide_unpack (x ∈ l)); vm_compute; exact I end.

Ltac not_file_entry := intros ? Hx; apply list_elem_of_singleton in Hx as ->;
                       unfold file_entry; naive_solver.

Example test_tick :
  let s := init false (Some [("tournament_1.json", mkFile 0 (Some "ev_a") true);
                             ("other.txt", mkFile 0 (Some "ev_b") true);
                             ("tournament_2.json", mkFile 990 (Some "ev_b") true);
                             ("tournament_3.json", mkFile 0 (Some "garbage") true)]) in
  let s1 := run demo_parse [EConnect 1; EConnect 2; ETick 1000 [2%nat]] s in
  wire s1 = [(1, connected_envelope); (2, connected_envelope); (1, envA)] /\
  processedFiles s1 = {[ "tournament_3.json" ; "tournament_1.json" ]} /\
  spool s1 = Some [("other.txt", mkFile 0 (Some "ev_b") true);
                   ("tournament_2.json", mkFile 990 (Some "ev_b") true);
                   ("tournament_3.json", mkFile 0 (Some "garbage") true)].
Proof. vm_compute. split; [reflexivity|]. split; [|reflexivity]. set_solver. Qed.

(** ** Broadcast lemmas *)

Lemma broadcast_loop_spec fails e rs cs w sent failed lg :
  match broadcast_loop fails e rs cs w sent failed lg with
  | (w', _, _, lg') =>
      w' = w ++ map (fun c => (c, e)) (filter (deliverable fails rs) cs) /\
      exists d, lg' = lg ++ d /\
        forall x, x ∈ d -> (exists c, x = LSendError c) \/ (exists c, x = LNotReady c)
  end.
Proof.
  revert w sent failed lg.
  induction cs as [|c cs IH]; intros w sent failed lg; simpl.
  - split; [by rewrite app_nil_r|]. exists []. split; [by rewrite app_nil_r|]. set_solver.
  - rewrite filter_cons. case_decide as Hdv; unfold deliverable in Hdv.
    + destruct Hdv as [Ho Hf]. rewrite Ho. rewrite bool_decide_false by done.
      specialize (IH (w ++ [(c, e)]) (S sent) failed lg).
      destruct (broadcast_loop _ _ _ _ _ _ _ _) as [[[w' s'] f'] lg'].
      destruct IH as [-> Hd]. split; [|done]. by rewrite <- app_assoc.
    + destruct (ReadyState_eqb (state_of rs c) OPEN) eqn:Ho.
      * rewrite bool_decide_true by (destruct (decide (c ∈ fails)); tauto).
        specialize (IH w sent (S failed) (lg ++ [LSendError c])).
        destruct (broadcast_loop _ _ _ _ _ _ _ _) as [[[w' s'] f'] lg'].
        destruct IH as [-> [d [-> Hd]]]. split; [done|].
        exists (LSendError c :: d). split; [by rewrite <- app_assoc|].
        intros x Hx. apply elem_of_cons in Hx as [->|Hx]; [left; eauto|auto].
      * specialize (IH w sent (S failed) (lg ++ [LNotReady c])).
        destruct (broadcast_loop _ _ _ _ _ _ _ _) as [[[w' s'] f'] lg'].
        destruct IH as [-> [d [-> Hd]]]. split; [done|].
        exists (LNotReady c :: d). split; [by rewrite <- app_assoc|].
        intros x Hx. apply elem_of_cons in Hx as [->|Hx]; [right; eauto|auto].
Qed.

Lemma received_app c w1 w2 : received c (w1 ++ w2) = received c w1 ++ received c w2.
Proof. unfold received. by rewrite filter_app, map_app. Qed.

Lemma received_map_notin c e (cs : list nat) :
  c ∉ cs -> received c (map (fun x => (x, e)) cs) = [].
Proof.
  induction cs as [|x cs IH]; intros Hc; [done|].
  unfold received in *. simpl. rewrite filter_cons.
  rewrite decide_False by set_solver. apply IH. set_solver.
Qed.

Lemma received_map_in c e (cs : list nat) :
  NoDup cs -> c ∈ cs -> received c (map (fun x => (x, e)) cs) = [e].
Proof.
  induction cs as [|x cs IH]; intros Hnd Hc; [set_solver|].
  apply NoDup_cons in Hnd as [Hx Hnd].
  unfold received in *. simpl. rewrite filter_cons.
  destruct (decide (x = c)) as [->|Hne].
  - rewrite decide_True by done. simpl. f_equal.
    change (received c (map (fun x => (x, e)) cs) = []).
    by apply received_map_notin.
  - rewrite decide_False by done. apply IH; [done|]. set_solver.
Qed.

Lemma targets_sub fails e rs cs c :
  c ∈ targets fails e rs cs -> c ∈ filter (deliverable fails rs) cs.
Proof. unfold targets. destruct (broadcast_throws e); [set_solver|done]. Qed.

Lemma targets_no_throw fails e rs cs :
  broadcast_throws e = false -> targets fails e rs cs = filter (deliverable fails rs) cs.
Proof. unfold targets. by intros ->. Qed.

(** What one broadcast call does to the fields of the state. *)
Lemma broadcast_fields fails e s :
  let s' := broadcast fails e s in
  clients s' = clients s /\ ready s' = ready s /\
  redisAvailable s' = redisAvailable s /\ redisPc s' = redisPc s /\
  processedFiles s' = processedFiles s /\ spool s' = spool s /\
  wire s' = wire s ++ map (fun c => (c, e)) (targets fails e (ready s) (clients s)) /\
  exists d, logs s' = logs s ++ d /\
    forall x, x ∈ d -> (exists c, x = LSendError c) \/ (exists c, x = LNotReady c)
                       \/ (exists v a b, x = LBroadcast v a b).
Proof.
  unfold broadcast, targets. destruct (broadcast_throws e).
  { simpl. rewrite app_nil_r. do 7 (split; [done|]).
    exists []. rewrite app_nil_r. split; [done|]. set_solver. }
  pose proof (broadcast_loop_spec fails e (ready s) (clients s) (wire s) 0 0 (logs s)) as H.
  destruct (broadcast_loop _ _ _ _ _ _ _ _) as [[[w' sent] failed] lg'].
  destruct H as [Hw [d [Hl Hd]]]. simpl.
  do 6 (split; [done|]). split; [done|].
  exists (d ++ [LBroadcast e sent failed]). split; [subst; by rewrite app_assoc|].
  intros x Hx. apply elem_of_app in Hx as [Hx|Hx].
  - destruct (Hd x Hx); auto.
  - apply list_elem_of_singleton in Hx. subst. right; right; eauto.
Qed.

Lemma broadcast_received fails e s c :
  received c (wire (broadcast fails e s)) =
  received c (wire s) ++ received c (map (fun x => (x, e)) (targets fails e (ready s) (clients s))).
Proof.
  destruct (broadcast_fields fails e s) as (_ & _ & _ & _ & _ & _ & Hw & _).
  by rewrite Hw, received_app.
Qed.

(** ** Spool scan lemmas *)

Lemma find_file_filter f g (dir : list (string * FileRec)) :
  f <> g -> find_file f (filter (fun e => e.1 <> g) dir) = find_file f dir.
Proof.
  intros Hfg. induction dir as [|[n r] dir IH]; [done|].
  rewrite filter_cons. simpl. case_decide as Hn; simpl.
  - by rewrite IH.
  - rewrite bool_decide_false by (simpl in Hn; congruence). done.
Qed.

Lemma find_file_filter_same f (dir : list (string * FileRec)) :
  find_file f (filter (fun e => e.1 <> f) dir) = None.
Proof.
  induction dir as [|[n r] dir IH]; [done|].
  rewrite filter_cons. case_decide as Hn; simpl in *; [|done].
  by rewrite bool_decide_false.
Qed.

Lemma scan_ok_refl g s : scan_ok g s s.
Proof.
  repeat split; try done.
  - exists []. by rewrite app_nil_r.
  - exists []. rewrite app_nil_r. split; [done|]. set_solver.
Qed.

Lemma scan_ok_trans g s1 s2 s3 : scan_ok g s1 s2 -> scan_ok g s2 s3 -> scan_ok g s1 s3.
Proof.
  intros (Hc & Hr & Ha & Hp & [dw [Hw Hdw]] & [d [Hl Hd]] & Hf)
         (Hc' & Hr' & Ha' & Hp' & [dw' [Hw' Hdw']] & [d' [Hl' Hd']] & Hf').
  split; [congruence|]. split; [congruence|]. split; [congruence|]. split; [congruence|].
  split; [|split].
  - exists (dw ++ dw'). rewrite Hw', Hw, app_assoc. split; [done|].
    apply Forall_app. split; [done|]. by rewrite <- Hc.
  - exists (d ++ d'). rewrite Hl', Hl, app_assoc. split; [done|].
    intros f x Hfg Hx. apply elem_of_app in Hx as [Hx|Hx]; eauto.
  - intros f Hfg. destruct (Hf f Hfg) as [Hs Hm]. destruct (Hf' f Hfg) as [Hs' Hm'].
    split; [congruence|]. by rewrite Hm'.
Qed.

Lemma scan_ok_add_log g e s :
  (forall f, f <> g -> ~ file_entry f e) -> scan_ok g s (add_log e s).
Proof.
  intros He. repeat split; try done.
  - exists []. by rewrite app_nil_r.
  - exists [e]. split; [done|]. intros f x Hfg Hx.
    apply list_elem_of_singleton in Hx as ->. auto.
Qed.

Lemma scan_ok_set_processed g p s :
  (forall f, f <> g -> f ∈ p <-> f ∈ processedFiles s) -> scan_ok g s (set_processed p s).
Proof.
  intros Hp. repeat split; try done.
  - exists []. by rewrite app_nil_r.
  - exists []. rewrite app_nil_r. split; [done|]. set_solver.
  - intros Hf. by apply Hp.
  - intros Hf. by apply Hp.
Qed.

Lemma scan_ok_broadcast g fails e s : scan_ok g s (broadcast fails e s).
Proof.
  destruct (broadcast_fields fails e s) as (Hc & Hr & Ha & Hp & Hpf & Hsp & Hw & [d [Hl Hd]]).
  split; [done|]. split; [done|]. split; [done|]. split; [done|]. split; [|split].
  - eexists. split; [exact Hw|]. apply Forall_forall. intros x Hx.
    apply list_elem_of_In, in_map_iff in Hx as [c [<- Hc']]. simpl.
    apply list_elem_of_In, targets_sub in Hc'. by apply list_elem_of_filter in Hc' as [_ ?].
  - exists d. split; [done|]. intros f x _ Hx Hfe.
    destruct (Hd x Hx) as [[c ->]|[[c ->]|[v [a [b ->]]]]];
      unfold file_entry in Hfe; naive_solver.
  - intros f _. unfold stat_file. by rewrite Hsp, Hpf.
Qed.

Lemma scan_ok_unlink g s : scan_ok g s (unlink_file g s).
Proof.
  split; [done|]. split; [done|]. split; [done|]. split; [done|]. split; [|split].
  - exists []. by rewrite app_nil_r.
  - exists [LUnlinkFile g]. split; [done|]. intros f x Hfg Hx.
    apply list_elem_of_singleton in Hx as ->. unfold file_entry. naive_solver.
  - intros f Hfg. split; [|done]. unfold stat_file, unlink_file; simpl.
    destruct (spool s); [|done]. by apply find_file_filter.
Qed.

Lemma scan_file_ok P fails now s g : scan_ok g s (scan_file P fails now s g).
Proof.
  assert (Hne : forall f, f <> g -> ~ file_entry f (LFileError g)).
  { intros f _ H. unfold file_entry in H. naive_solver. }
  assert (Hread : forall f, f <> g -> ~ file_entry f (LReadFile g)).
  { intros f Hfg H. unfold file_entry in H. naive_solver. }
  assert (Hev : forall f, f <> g -> ~ file_entry f (LFileEvent g)).
  { intros f Hfg H. unfold file_entry in H. naive_solver. }
  assert (Hul : forall f, f <> g -> ~ file_entry f (LUnlinkFile g)).
  { intros f Hfg H. unfold file_entry in H. naive_solver. }
  unfold scan_file. case_bool_decide as Hin; [apply scan_ok_refl|].
  set (s1 := set_processed ({[g]} ∪ processedFiles s) s).
  assert (H1 : scan_ok g s s1).
  { apply scan_ok_set_processed. intros f Hfg. set_solver. }
  destruct (stat_file s1 g) as [stats|].
  2: { eapply scan_ok_trans; [exact H1|]. by apply scan_ok_add_log. }
  destruct (now - mtimeMs stats <? 50)%Z.
  { eapply scan_ok_trans; [exact H1|]. apply scan_ok_set_processed.
    intros f Hfg. simpl. set_solver. }
  assert (H2 : scan_ok g s (add_log (LReadFile g) s1)).
  { eapply scan_ok_trans; [exact H1|]. by apply scan_ok_add_log. }
  destruct (contents stats) as [raw|].
  2: { eapply scan_ok_trans; [exact H2|]. by apply scan_ok_add_log. }
  destruct (P raw) as [event|].
  2: { eapply scan_ok_trans; [exact H2|]. by apply scan_ok_add_log. }
  destruct (read_event_field event).
  2: { eapply scan_ok_trans; [exact H2|]. by apply scan_ok_add_log. }
  eapply scan_ok_trans; [exact H2|].
  eapply scan_ok_trans; [apply (scan_ok_add_log g (LFileEvent g)); exact Hev|].
  destruct (broadcast_throws event); [apply scan_ok_add_log; exact Hne|].
  eapply scan_ok_trans; [apply scan_ok_broadcast|].
  destruct (unlink_ok _ g); [apply scan_ok_unlink|].
  eapply scan_ok_trans; [apply (scan_ok_add_log g (LUnlinkFile g)); exact Hul|].
  apply scan_ok_add_log; exact Hne.
Qed.

(** ** Whole-step lemmas *)

Lemma frame_refl s : frame s s.
Proof.
  repeat split; try done.
  - exists []. by rewrite app_nil_r.
  - exists []. by rewrite app_nil_r.
Qed.

Lemma frame_trans s1 s2 s3 : frame s1 s2 -> frame s2 s3 -> frame s1 s3.
Proof.
  intros (Hc & Hr & Ha & Hp & [dw [Hw Hdw]] & [d Hl])
         (Hc' & Hr' & Ha' & Hp' & [dw' [Hw' Hdw']] & [d' Hl']).
  split; [congruence|]. split; [congruence|]. split; [congruence|]. split; [congruence|].
  split.
  - exists (dw ++ dw'). rewrite Hw', Hw, app_assoc. split; [done|].
    apply Forall_app. split; [done|]. by rewrite <- Hc.
  - exists (d ++ d'). by rewrite Hl', Hl, app_assoc.
Qed.

Lemma scan_ok_frame g s s' : scan_ok g s s' -> frame s s'.
Proof.
  intros (Hc & Hr & Ha & Hp & Hw & [d [Hl _]] & _).
  do 5 (split; [done|]). by exists d.
Qed.

Lemma frame_add_log e s : frame s (add_log e s).
Proof.
  repeat split; try done.
  - exists []. by rewrite app_nil_r.
  - by exists [e].
Qed.

Lemma scan_files_frame P fails now files s : frame s (scan_files P fails now files s).
Proof.
  revert s. induction files as [|g files IH]; intros s; simpl; [apply frame_refl|].
  eapply frame_trans; [|apply IH]. eapply scan_ok_frame, scan_file_ok.
Qed.

Lemma poll_tick_frame P fails now s : frame s (poll_tick P fails now s).
Proof.
  unfold poll_tick. destruct (redisAvailable s); [apply frame_refl|].
  destruct (spool s).
  - eapply frame_trans; [apply frame_add_log|]. apply scan_files_frame.
  - eapply frame_trans; apply frame_add_log.
Qed.

Lemma on_redis_message_frame P fails m s : frame s (on_redis_message P fails m s).
Proof.
  unfold on_redis_message. destruct (P m) as [v|]; [|apply frame_add_log].
  destruct (read_event_field v); [|apply frame_add_log].
  destruct (broadcast_throws v); [apply frame_add_log|].
  eapply scan_ok_frame. apply (scan_ok_broadcast "").
Qed.

Lemma scan_file_processed_mono P fails now s g :
  processedFiles s ⊆ processedFiles (scan_file P fails now s g).
Proof.
  unfold scan_file. case_bool_decide as Hin; [done|].
  destruct (stat_file _ g) as [stats|]; simpl; [|set_solver].
  destruct (now - mtimeMs stats <? 50)%Z; simpl; [set_solver|].
  destruct (contents stats) as [raw|]; simpl; [|set_solver].
  destruct (P raw) as [event|]; simpl; [|set_solver].
  destruct (read_event_field event); simpl; [|set_solver].
  destruct (broadcast_throws event); simpl; [set_solver|].
  destruct (broadcast_fields fails event
              (add_log (LFileEvent g) (add_log (LReadFile g)
                 (set_processed ({[g]} ∪ processedFiles s) s))))
    as (_ & _ & _ & _ & Hp & _).
  destruct (unlink_ok _ g); simpl; rewrite Hp; simpl; set_solver.
Qed.

Lemma scan_files_processed_mono P fails now files s :
  processedFiles s ⊆ processedFiles (scan_files P fails now files s).
Proof.
  revert s. induction files as [|g files IH]; intros s; simpl; [done|].
  etrans; [apply scan_file_processed_mono|]. apply IH.
Qed.

Lemma poll_tick_processed_mono P fails now s :
  processedFiles s ⊆ processedFiles (poll_tick P fails now s).
Proof.
  unfold poll_tick. destruct (redisAvailable s); [done|].
  destruct (spool s); [|done].
  exact (scan_files_processed_mono P fails now _ (add_log LListDir s)).
Qed.

Lemma step_processed_mono P ev s :
  processedFiles s ⊆ processedFiles (step P ev s).
Proof.
  destruct ev; simpl; try done.
  - destruct (redisPc s); try done. unfold on_redis_message.
    destruct (P message) as [v|]; [|done]. destruct (read_event_field v); [|done].
    destruct (broadcast_throws v); [done|].
    by destruct (broadcast_fields fails v s) as (_ & _ & _ & _ & -> & _).
  - apply poll_tick_processed_mono.
  - unfold redis_step. repeat case_match; done.
Qed.

(** ** Claims *)

(** C10: [broadcast] never changes the Connection Registry, whatever the
    sends do; across the whole process only the connection-accept, close
    and error handlers change it. *)
Theorem broadcast_never_mutates_registry :
  (forall fails e s, clients (broadcast fails e s) = clients s) /\
  (forall P ev s, lifecycle ev = true \/ clients (step P ev s) = clients s).
Proof.
  split.
  - intros fails e s. by destruct (broadcast_fields fails e s).
  - intros P ev s. destruct ev; simpl; auto; right.
    + destruct (redisPc s); try done. by destruct (on_redis_message_frame P fails message s).
    + by destruct (poll_tick_frame P fails now s).
    + unfold redis_step. by repeat case_match.
Qed.

(** C2: while [redisAvailable] is true a poll tick does nothing at all: no
    directory listing, no read, no delete, no change of any state. *)
Theorem poll_tick_gated_when_available P fails now s :
  redisAvailable s = true -> poll_tick P fails now s = s.
Proof. intros H. unfold poll_tick. by rewrite H. Qed.

(** C9: the Processed-File Set only grows: over one iteration of the file
    loop, over one poll tick, and over any step of the process. *)
Theorem processed_files_monotone :
  (forall P fails now s file,
     processedFiles s ⊆ processedFiles (scan_file P fails now s file)) /\
  (forall P fails now s, processedFiles s ⊆ processedFiles (poll_tick P fails now s)) /\
  (forall P ev s, processedFiles s ⊆ processedFiles (step P ev s)).
Proof.
  split; [|split].
  - apply scan_file_processed_mono.
  - apply poll_tick_processed_mono.
  - apply step_processed_mono.
Qed.

(** C3 (as stated, refuted): socket 1 is registered and open; its send
    throws during one broadcast; it is still registered afterwards and
    receives the envelope of the next broadcast. *)
Lemma failed_send_connection_not_removed :
  let s0 := run demo_parse [EConnect 1%nat] (init false None) in
  let s1 := broadcast [1%nat] envA s0 in
  let s2 := broadcast [] envB s1 in
  clients s1 = [1%nat] /\ received 1 (wire s2) = [connected_envelope; envB].
Proof. vm_compute. split; reflexivity. Qed.

Lemma received_map_elem c e (cs : list nat) :
  c ∈ cs -> e ∈ received c (map (fun x => (x, e)) cs).
Proof.
  induction cs as [|x cs IH]; intros Hc; [set_solver|].
  unfold received in *. simpl. rewrite filter_cons.
  apply elem_of_cons in Hc as [->|Hc].
  - rewrite decide_True by done. simpl. by apply elem_of_cons; left.
  - case_decide; simpl; [apply elem_of_cons; right|]; by apply IH.
Qed.

Lemma step_keeps_member P ev s c :
  c ∈ clients s -> leaves c ev = false -> c ∈ clients (step P ev s).
Proof.
  intros Hc Hl. destruct ev; simpl in *; try done.
  - unfold set_add. case_bool_decide; set_solver.
  - apply Nat.eqb_neq in Hl. unfold set_delete. apply list_elem_of_filter. split; [congruence|done].
  - apply Nat.eqb_neq in Hl. unfold set_delete. apply list_elem_of_filter. split; [congruence|done].
  - destruct (redisPc s); try done.
    by destruct (on_redis_message_frame P fails message s) as (-> & _).
  - by destruct (poll_tick_frame P fails now s) as (-> & _).
  - unfold redis_step. by repeat case_match.
Qed.

Lemma run_keeps_member P tr s c :
  c ∈ clients s -> forallb (fun ev => negb (leaves c ev)) tr = true ->
  c ∈ clients (run P tr s).
Proof.
  revert s. induction tr as [|ev tr IH]; intros s Hc Htr; simpl in *; [done|].
  apply andb_true_iff in Htr as [Hev Htr]. apply negb_true_iff in Hev.
  apply IH; [by apply step_keeps_member|done].
Qed.

(** C3 (amended): a connection whose send fails during a broadcast gets
    nothing from that call and stays in the Registry: [broadcast] removes
    nothing.  Only its socket's [close] or [error] handler removes it: over
    any run of the process that does not run them it stays registered, and
    a later broadcast (one that gets past [`Event: ${event.event}`]) sends
    to it again and delivers the envelope once its socket is [OPEN] and the
    send succeeds. *)
Theorem broadcast_keeps_failed_connection P fails e s c :
  c ∈ fails ->
  clients (broadcast fails e s) = clients s /\
  received c (wire (broadcast fails e s)) = received c (wire s) /\
  (forall tr, c ∈ clients s -> forallb (fun ev => negb (leaves c ev)) tr = true ->
   let s' := run P tr (broadcast fails e s) in
   c ∈ clients s' /\
   (forall fails' e', broadcast_throws e' = false ->
      state_of (ready s') c = OPEN -> c ∉ fails' ->
      exists l, received c (wire (broadcast fails' e' s')) = received c (wire s') ++ l /\ e' ∈ l)).
Proof.
  intros Hc.
  assert (Hcl : clients (broadcast fails e s) = clients s) by by destruct (broadcast_fields fails e s).
  split; [done|]. split.
  { rewrite broadcast_received, received_map_notin, app_nil_r; [done|].
    intros Hin. apply targets_sub, list_elem_of_filter in Hin as [[_ Hf] _]. done. }
  intros tr Hin Htr. cbv zeta.
  assert (Hin' : c ∈ clients (run P tr (broadcast fails e s))).
  { apply run_keeps_member; [by rewrite Hcl|done]. }
  split; [done|]. intros fails' e' He Ho Hf.
  rewrite broadcast_received. eexists. split; [reflexivity|].
  apply received_map_elem. rewrite targets_no_throw by done.
  apply list_elem_of_filter. split; [|done]. split; [by rewrite Ho|done].
Qed.

(** C4 (code defect of the p0 variant): sockets 1 and 2 are open and the
    send to 1 throws.  In part_000 the exception leaves the loop, so socket
    2 gets nothing and the Redis callback reports the message as invalid;
    websocket-server.js catches it and still delivers to socket 2. *)
Theorem p0_send_failure_aborts_broadcast :
  on_redis_message_p0 demo_parse [1%nat] "ev_a" [1%nat; 2%nat] rs12 [] = ([], true) /\
  received 2 (wire (broadcast [1%nat] envA
                      (mkState [1%nat; 2%nat] rs12 [] false RSubscribed ∅ None []))) = [envA].
Proof. vm_compute. split; reflexivity. Qed.

(** C1 (code defect of the p0 variant): socket 2 stays open through two
    Redis messages, but in part_000 it misses the first one because the
    send to socket 1 threw before it; the main variant delivers both, in
    order, after the greeting. *)
Theorem p0_open_client_misses_broadcast :
  (let '(w1, _) := on_redis_message_p0 demo_parse [1%nat] "ev_a" [1%nat; 2%nat] rs12 [] in
   let '(w2, _) := on_redis_message_p0 demo_parse [] "ev_b" [1%nat; 2%nat] rs12 w1 in
   received 2 w2 = [envB]) /\
  received 2 (wire (run demo_parse
                [EConnect 1%nat; EConnect 2%nat; ERedis (RClientConnected true);
                 ERedis (RSubscriberConnected true); ERedis (RSubscribeSettled true);
                 ERedisMessage "ev_a" [1%nat]; ERedisMessage "ev_b" []]
                (init true None))) = [connected_envelope; envA; envB].
Proof. vm_compute. split; reflexivity. Qed.

(** C7 (as stated, refuted): once both connects succeed the flag is true
    while the subscribe call is still pending. *)
Lemma redis_flag_true_while_subscribe_pending :
  let s := run demo_parse [ERedis (RClientConnected true); ERedis (RSubscriberConnected true)]
                (init true None) in
  redisAvailable s = true /\ redisPc s = RAwaitSubscribe.
Proof. vm_compute. split; reflexivity. Qed.

Lemma run_app P tr1 tr2 s : run P (tr1 ++ tr2) s = run P tr2 (run P tr1 s).
Proof. revert s. induction tr1 as [|ev tr1 IH]; intros s; simpl; [done|]. apply IH. Qed.

Lemma step_redis_frame P ev s :
  (exists r, ev = ERedis r) \/
  (redisAvailable (step P ev s) = redisAvailable s /\ redisPc (step P ev s) = redisPc s).
Proof.
  destruct ev; simpl; try (right; split; done).
  - right. destruct (redisPc s) eqn:E; try (split; done).
    destruct (on_redis_message_frame P fails message s) as (_ & _ & -> & -> & _).
    by rewrite E.
  - right. by destruct (poll_tick_frame P fails now s) as (_ & _ & -> & -> & _).
  - left. eauto.
Qed.

Lemma redis_inv_step P ev s : redis_inv s -> redis_inv (step P ev s).
Proof.
  intros Hi. destruct (step_redis_frame P ev s) as [[r ->]|[Ha Hp]].
  - simpl. unfold redis_step, redis_inv in *.
    destruct (redisPc s) eqn:Hpc, r as [[]|[]|[]| |]; simpl; rewrite ?Hpc in Hi;
      intuition congruence.
  - unfold redis_inv. by rewrite Ha, Hp.
Qed.

Lemma redis_inv_run P tr s : redis_inv s -> redis_inv (run P tr s).
Proof.
  revert s. induction tr as [|ev tr IH]; intros s Hs; simpl; [done|].
  by apply IH, redis_inv_step.
Qed.

(** C7 (amended): in every reachable state the flag is true only if both
    broker connections have connected (the subscribe call then pending or
    done), and a failed subscribe resets it to false.  It becomes true as
    soon as the second connect succeeds, with the subscribe call still
    pending. *)
Theorem redis_flag_only_after_both_connects P en dir tr :
  let s := run P tr (init en dir) in
  (redisPc s = RAwaitSubscriber ->
   let s' := step P (ERedis (RSubscriberConnected true)) s in
   redisAvailable s' = true /\ redisPc s' = RAwaitSubscribe) /\
  (redisAvailable s = false \/ redisPc s = RAwaitSubscribe \/ redisPc s = RSubscribed) /\
  (redisPc s = RAwaitSubscribe ->
   redisAvailable (step P (ERedis (RSubscribeSettled false)) s) = false).
Proof.
  simpl. split; [intros Hpc; simpl; unfold redis_step; by rewrite Hpc|]. split.
  - apply (redis_inv_run P tr (init en dir)). by left.
  - intros Hpc. simpl. unfold redis_step. by rewrite Hpc.
Qed.

Lemma received_nil_forall c (cs : list nat) (dw : list (nat * Json)) :
  c ∉ cs -> Forall (fun x => x.1 ∈ cs) dw -> received c dw = [].
Proof.
  intros Hc Hf. induction Hf as [|x dw Hx Hf IH]; [done|].
  unfold received in *. simpl. rewrite filter_cons.
  rewrite decide_False by (intros <-; done). apply IH.
Qed.

Lemma step_wire_grows P ev s : exists dw, wire (step P ev s) = wire s ++ dw.
Proof.
  destruct ev; simpl; try (exists []; by rewrite app_nil_r).
  - by eexists.
  - destruct (redisPc s); try (exists []; by rewrite app_nil_r).
    destruct (on_redis_message_frame P fails message s) as (_ & _ & _ & _ & [dw [? _]] & _).
    eauto.
  - destruct (poll_tick_frame P fails now s) as (_ & _ & _ & _ & [dw [? _]] & _). eauto.
  - unfold redis_step. repeat case_match; (exists []; by rewrite app_nil_r).
Qed.

Lemma run_received_grows P tr s c :
  exists l, received c (wire (run P tr s)) = received c (wire s) ++ l.
Proof.
  revert s. induction tr as [|ev tr IH]; intros s; simpl.
  - exists []. by rewrite app_nil_r.
  - destruct (IH (step P ev s)) as [l Hl]. destruct (step_wire_grows P ev s) as [dw Hw].
    rewrite Hl, Hw, received_app, <- app_assoc. eauto.
Qed.

Lemma step_fresh P ev s c :
  c ∉ clients s -> touches c ev = false ->
  (c ∉ clients (step P ev s)) /\ received c (wire (step P ev s)) = received c (wire s).
Proof.
  intros Hc Ht. destruct ev; simpl in *; try done.
  - apply Nat.eqb_neq in Ht. split.
    + unfold set_add. case_bool_decide; set_solver.
    + rewrite received_app. unfold received at 2. simpl.
      rewrite filter_cons, decide_False by done. simpl. by rewrite app_nil_r.
  - split; [|done]. unfold set_delete. intros Hin.
    apply list_elem_of_filter in Hin as [_ ?]. done.
  - split; [|done]. unfold set_delete. intros Hin.
    apply list_elem_of_filter in Hin as [_ ?]. done.
  - destruct (redisPc s); try done.
    destruct (on_redis_message_frame P fails message s) as (-> & _ & _ & _ & [dw [-> Hdw]] & _).
    split; [done|]. rewrite received_app, (received_nil_forall c (clients s) dw); [|done..].
    by rewrite app_nil_r.
  - destruct (poll_tick_frame P fails now s) as (-> & _ & _ & _ & [dw [-> Hdw]] & _).
    split; [done|]. rewrite received_app, (received_nil_forall c (clients s) dw); [|done..].
    by rewrite app_nil_r.
  - unfold redis_step. by repeat case_match.
Qed.

Lemma run_fresh P tr s c :
  c ∉ clients s -> forallb (fun ev => negb (touches c ev)) tr = true ->
  (c ∉ clients (run P tr s)) /\ received c (wire (run P tr s)) = received c (wire s).
Proof.
  revert s. induction tr as [|ev tr IH]; intros s Hc Ht; simpl in *; [done|].
  apply andb_true_iff in Ht as [Ht1 Ht2]. apply negb_true_iff in Ht1.
  destruct (step_fresh P ev s c Hc Ht1) as [Hc' Hr'].
  destruct (IH _ Hc' Ht2) as [? ->]. done.
Qed.

(** C8: a socket that has never been seen before gets the greeting
    envelope as its very first message, whatever happens afterwards. *)
Theorem first_message_is_greeting P en dir pre post c :
  forallb (fun ev => negb (touches c ev)) pre = true ->
  head (received c (wire (run P (pre ++ EConnect c :: post) (init en dir))))
  = Some connected_envelope.
Proof.
  intros Hpre. rewrite run_app. simpl.
  destruct (run_fresh P pre (init en dir) c) as [_ Hr]; [set_solver|done|].
  destruct (run_received_grows P post (on_connection c (run P pre (init en dir))) c) as [l ->].
  unfold on_connection. simpl. rewrite received_app, Hr. unfold received at 2. simpl.
  rewrite filter_cons, decide_True by done. done.
Qed.

(** ** Poison files and the grace window *)

Lemma scan_file_undecodable P fails now s f r raw :
  f ∉ processedFiles s -> stat_file s f = Some r -> (50 <= now - mtimeMs r)%Z ->
  contents r = Some raw -> (P raw = None \/ P raw = Some JNull) ->
  scan_file P fails now s f =
  add_log (LFileError f) (add_log (LReadFile f) (set_processed ({[f]} ∪ processedFiles s) s)).
Proof.
  intros Hf Hs Ht Hc Hp. unfold scan_file.
  rewrite bool_decide_false by done.
  change (stat_file (set_processed ({[f]} ∪ processedFiles s) s) f) with (stat_file s f).
  rewrite Hs. replace (now - mtimeMs r <? 50)%Z with false by lia.
  rewrite Hc. by destruct Hp as [-> | ->].
Qed.

Lemma scan_file_no_file_entry P fails now s g f :
  f ∈ processedFiles s ->
  exists d, logs (scan_file P fails now s g) = logs s ++ d /\ forall x, x ∈ d -> ~ file_entry f x.
Proof.
  intros Hf. destruct (decide (g = f)) as [->|Hne].
  - unfold scan_file. rewrite bool_decide_true by done.
    exists []. rewrite app_nil_r. split; [done|]. set_solver.
  - destruct (scan_file_ok P fails now s g) as (_ & _ & _ & _ & _ & [d [Hl Hd]] & _).
    exists d. split; [done|]. intros x Hx. apply Hd; [congruence|done].
Qed.

Lemma scan_files_no_file_entry P fails now files s f :
  f ∈ processedFiles s ->
  exists d, logs (scan_files P fails now files s) = logs s ++ d /\
            forall x, x ∈ d -> ~ file_entry f x.
Proof.
  revert s. induction files as [|g files IH]; intros s Hf; simpl.
  - exists []. rewrite app_nil_r. split; [done|]. set_solver.
  - destruct (scan_file_no_file_entry P fails now s g f Hf) as [d [Hl Hd]].
    destruct (IH (scan_file P fails now s g)) as [d' [Hl' Hd']].
    { by apply scan_file_processed_mono. }
    exists (d ++ d'). rewrite Hl', Hl, app_assoc. split; [done|].
    intros x Hx. apply elem_of_app in Hx as [Hx|Hx]; auto.
Qed.

Lemma step_no_file_entry P ev s f :
  f ∈ processedFiles s ->
  exists d, logs (step P ev s) = logs s ++ d /\ forall x, x ∈ d -> ~ file_entry f x.
Proof.
  intros Hf.
  assert (Hnil : exists d, logs s = logs s ++ d /\ forall x, x ∈ d -> ~ file_entry f x).
  { exists []. rewrite app_nil_r. split; [done|]. set_solver. }
  destruct ev; simpl; try exact Hnil.
  - destruct (redisPc s); try exact Hnil. unfold on_redis_message.
    destruct (P message) as [v|]; [destruct (read_event_field v)|].
    + destruct (broadcast_throws v).
      { exists [LRedisParseError message]. split; [done|]. not_file_entry. }
      destruct (broadcast_fields fails v s) as (_ & _ & _ & _ & _ & _ & _ & [d [Hl Hd]]).
      exists d. split; [done|]. intros x Hx Hfe. unfold file_entry in Hfe.
      destruct (Hd x Hx) as [[? ->]|[[? ->]|[? [? [? ->]]]]]; naive_solver.
    + exists [LRedisParseError message]. split; [done|]. not_file_entry.
    + exists [LRedisParseError message]. split; [done|]. not_file_entry.
  - unfold poll_tick. destruct (redisAvailable s); [exact Hnil|].
    destruct (spool s).
    + destruct (scan_files_no_file_entry P fails now (filter (fun f => is_event_file f = true) (map fst l))
                  (add_log LListDir s) f Hf) as [d [Hl Hd]].
      rewrite Hl. exists (LListDir :: d). split; [simpl; by rewrite <- app_assoc|].
      intros x Hx. apply elem_of_cons in Hx as [->|Hx]; [|auto].
      unfold file_entry. naive_solver.
    + exists [LListDir; LDirError]. split; [simpl; by rewrite <- app_assoc|].
      intros x Hx Hfe. unfold file_entry in Hfe. set_solver.
  - unfold redis_step. repeat case_match; exact Hnil.
Qed.

Lemma run_no_file_entry P tr s f :
  f ∈ processedFiles s ->
  f ∈ processedFiles (run P tr s) /\
  exists d, logs (run P tr s) = logs s ++ d /\ forall x, x ∈ d -> ~ file_entry f x.
Proof.
  revert s. induction tr as [|ev tr IH]; intros s Hf; simpl.
  - split; [done|]. exists []. rewrite app_nil_r. split; [done|]. set_solver.
  - destruct (step_no_file_entry P ev s f Hf) as [d [Hl Hd]].
    destruct (IH (step P ev s)) as [Hf' [d' [Hl' Hd']]].
    { by apply step_processed_mono. }
    split; [done|]. exists (d ++ d'). rewrite Hl', Hl, app_assoc. split; [done|].
    intros x Hx. apply elem_of_app in Hx as [Hx|Hx]; auto.
Qed.

(** C5: a new spool file whose contents [JSON.parse] rejects (or that
    decodes to [null], on which [event.event] throws) is read once, the
    error is logged, the scan goes on with the remaining files, and the
    name stays in the Processed-File Set: no later step of the process
    reads, broadcasts or deletes that file again (it stays on disk). *)
Theorem undecodable_spool_file_dropped_once P fails now s f r raw :
  f ∉ processedFiles s -> stat_file s f = Some r -> (50 <= now - mtimeMs r)%Z ->
  contents r = Some raw -> (P raw = None \/ P raw = Some JNull) ->
  let s' := scan_file P fails now s f in
  s' = add_log (LFileError f) (add_log (LReadFile f) (set_processed ({[f]} ∪ processedFiles s) s)) /\
  (forall rest, scan_files P fails now (f :: rest) s = scan_files P fails now rest s') /\
  (forall tr, f ∈ processedFiles (run P tr s') /\
     exists d, logs (run P tr s') = logs s' ++ d /\
       (LReadFile f ∉ d) /\ (LFileEvent f ∉ d) /\ (LUnlinkFile f ∉ d)).
Proof.
  intros Hf Hs Ht Hc Hp s'.
  assert (Hs' : s' = add_log (LFileError f) (add_log (LReadFile f)
                       (set_processed ({[f]} ∪ processedFiles s) s))).
  { subst s'. by apply scan_file_undecodable with r raw. }
  split; [done|]. split; [done|].
  intros tr. destruct (run_no_file_entry P tr s' f) as [Hin [d [Hl Hd]]].
  { rewrite Hs'. simpl. set_solver. }
  split; [done|]. exists d. split; [done|].
  unfold file_entry in Hd. split; [|split]; intros Hx; eapply Hd; eauto.
Qed.

Lemma find_file_in f (dir : list (string * FileRec)) r :
  find_file f dir = Some r -> f ∈ map fst dir.
Proof.
  induction dir as [|[n r'] dir IH]; simpl; [done|].
  case_bool_decide as Hn; intros H; [subst; left|right; auto].
Qed.

Lemma scan_file_young P fails now s f r :
  f ∉ processedFiles s -> stat_file s f = Some r -> (now - mtimeMs r < 50)%Z ->
  scan_file P fails now s f = s.
Proof.
  intros Hf Hs Ht. unfold scan_file. rewrite bool_decide_false by done.
  change (stat_file (set_processed ({[f]} ∪ processedFiles s) s) f) with (stat_file s f).
  rewrite Hs. replace (now - mtimeMs r <? 50)%Z with true by lia.
  destruct s. unfold set_processed. simpl. f_equal. set_solver.
Qed.

Lemma scan_files_young P fails now files s f r :
  f ∉ processedFiles s -> stat_file s f = Some r -> (now - mtimeMs r < 50)%Z ->
  let s' := scan_files P fails now files s in
  (f ∉ processedFiles s') /\ stat_file s' f = Some r /\ frame s s' /\
  exists d, logs s' = logs s ++ d /\ forall x, x ∈ d -> ~ file_entry f x.
Proof.
  revert s. induction files as [|g files IH]; intros s Hf Hs Ht; simpl.
  - split; [done|]. split; [done|]. split; [apply frame_refl|].
    exists []. rewrite app_nil_r. split; [done|]. set_solver.
  - destruct (decide (g = f)) as [->|Hne].
    + rewrite (scan_file_young P fails now s f r Hf Hs Ht). by apply IH.
    + pose proof (scan_file_ok P fails now s g) as Hok.
      destruct Hok as (_ & _ & _ & _ & _ & [d [Hl Hd]] & Hst).
      destruct (Hst f ltac:(congruence)) as [Hs1 Hm1].
      destruct (IH (scan_file P fails now s g)) as (Hf2 & Hs2 & Hfr & [d' [Hl' Hd']]).
      { by rewrite Hm1. } { by rewrite Hs1. } { done. }
      split; [done|]. split; [done|]. split.
      { eapply frame_trans; [|exact Hfr]. eapply scan_ok_frame, scan_file_ok. }
      exists (d ++ d'). rewrite Hl', Hl, app_assoc. split; [done|].
      intros x Hx. apply elem_of_app in Hx as [Hx|Hx]; [|auto].
      apply Hd; [congruence|done].
Qed.

Lemma scan_file_stat_none P fails now s g f :
  stat_file s f = None -> stat_file (scan_file P fails now s g) f = None.
Proof.
  intros Hs. destruct (decide (g = f)) as [->|Hne].
  - unfold scan_file. case_bool_decide; [done|].
    change (stat_file (set_processed ({[f]} ∪ processedFiles s) s) f) with (stat_file s f).
    by rewrite Hs.
  - destruct (scan_file_ok P fails now s g) as (_ & _ & _ & _ & _ & _ & Hst).
    destruct (Hst f ltac:(congruence)) as [-> _]. done.
Qed.

Lemma scan_files_stat_none P fails now files s f :
  stat_file s f = None -> stat_file (scan_files P fails now files s) f = None.
Proof.
  revert s. induction files as [|g files IH]; intros s Hs; simpl; [done|].
  by apply IH, scan_file_stat_none.
Qed.

Lemma broadcast_summary_logged fails e s :
  broadcast_throws e = false ->
  exists d a b, logs (broadcast fails e s) = logs s ++ d /\ LBroadcast e a b ∈ d.
Proof.
  intros He. unfold broadcast. rewrite He.
  pose proof (broadcast_loop_spec fails e (ready s) (clients s) (wire s) 0 0 (logs s)) as H.
  destruct (broadcast_loop _ _ _ _ _ _ _ _) as [[[w' sent] failed] lg'].
  destruct H as [_ [d [-> _]]]. simpl.
  exists (d ++ [LBroadcast e sent failed]), sent, failed.
  split; [by rewrite app_assoc|]. set_solver.
Qed.

Lemma scan_file_aged P fails now s f r :
  f ∉ processedFiles s -> stat_file s f = Some r -> (50 <= now - mtimeMs r)%Z ->
  exists d, logs (scan_file P fails now s f) = logs s ++ LReadFile f :: d /\
    forall raw v, contents r = Some raw -> P raw = Some v -> v <> JNull ->
      LFileEvent f ∈ d /\
      (broadcast_throws v = false ->
       (exists a b, LBroadcast v a b ∈ d) /\
       (removable r = true ->
        LUnlinkFile f ∈ d /\ stat_file (scan_file P fails now s f) f = None)).
Proof.
  intros Hf Hs Ht. unfold scan_file. rewrite bool_decide_false by done.
  change (stat_file (set_processed ({[f]} ∪ processedFiles s) s) f) with (stat_file s f).
  rewrite Hs. replace (now - mtimeMs r <? 50)%Z with false by lia.
  destruct (contents r) as [raw|] eqn:Hc.
  2: { exists [LFileError f]. split; [simpl; by rewrite <- app_assoc|]. naive_solver. }
  destruct (P raw) as [v|] eqn:Hp.
  2: { exists [LFileError f]. split; [simpl; by rewrite <- app_assoc|]. naive_solver. }
  destruct (read_event_field v) eqn:Hr.
  2: { exists [LFileError f]. split; [simpl; by rewrite <- app_assoc|].
       intros raw' v' [= <-] Hp' Hv. rewrite Hp in Hp'. injection Hp' as <-.
       by destruct v. }
  set (s3 := add_log (LFileEvent f) (add_log (LReadFile f)
               (set_processed ({[f]} ∪ processedFiles s) s))).
  assert (Hv : forall raw' v', Some raw = Some raw' -> P raw' = Some v' -> v' = v).
  { intros raw' v' [= <-] Hp'. congruence. }
  destruct (broadcast_throws v) eqn:Hbt.
  { exists [LFileEvent f; LFileError f]. split; [simpl; by rewrite <- !app_assoc|].
    intros raw' v' Hc' Hp' _. rewrite (Hv raw' v' Hc' Hp'), Hbt.
    split; [set_solver|done]. }
  destruct (broadcast_fields fails v s3) as (_ & _ & _ & _ & _ & Hsp & _ & [d [Hl _]]).
  destruct (broadcast_summary_logged fails v s3 Hbt) as (d' & a & b & Hl' & Hin).
  rewrite Hl in Hl'. apply app_inv_head in Hl'. subst d'.
  assert (Hst : stat_file (broadcast fails v s3) f = Some r).
  { unfold stat_file in *. by rewrite Hsp. }
  unfold unlink_ok. rewrite Hst.
  destruct (removable r) eqn:Hrm.
  - exists (LFileEvent f :: d ++ [LUnlinkFile f]). split.
    + unfold unlink_file. simpl. rewrite Hl. simpl. by rewrite <- !app_assoc.
    + intros raw' v' Hc' Hp' _. rewrite (Hv raw' v' Hc' Hp').
      split; [set_solver|]. intros _. split; [exists a, b; set_solver|].
      intros _. split; [set_solver|].
      unfold stat_file, unlink_file. simpl. rewrite Hsp.
      destruct (spool s3); [|done]. apply find_file_filter_same.
  - exists (LFileEvent f :: d ++ [LUnlinkFile f; LFileError f]). split.
    + simpl. rewrite Hl. simpl. by rewrite <- !app_assoc.
    + intros raw' v' Hc' Hp' _. rewrite (Hv raw' v' Hc' Hp').
      split; [set_solver|]. intros _. split; [exists a, b; set_solver|done].
Qed.

Lemma scan_files_aged P fails now files s f r :
  f ∈ files -> f ∉ processedFiles s -> stat_file s f = Some r -> (50 <= now - mtimeMs r)%Z ->
  exists d, logs (scan_files P fails now files s) = logs s ++ d /\ LReadFile f ∈ d /\
    forall raw v, contents r = Some raw -> P raw = Some v -> v <> JNull ->
      LFileEvent f ∈ d /\
      (broadcast_throws v = false ->
       (exists a b, LBroadcast v a b ∈ d) /\
       (removable r = true ->
        LUnlinkFile f ∈ d /\ stat_file (scan_files P fails now files s) f = None)).
Proof.
  revert s. induction files as [|g files IH]; intros s Hin Hf Hs Ht; [set_solver|]. simpl.
  destruct (decide (g = f)) as [->|Hne].
  - destruct (scan_file_aged P fails now s f r Hf Hs Ht) as [d1 [Hl1 H1]].
    destruct (scan_files_frame P fails now files (scan_file P fails now s f))
      as (_ & _ & _ & _ & _ & [d2 Hl2]).
    exists (LReadFile f :: d1 ++ d2). rewrite Hl2, Hl1. simpl.
    split; [by rewrite <- app_assoc|]. split; [set_solver|].
    intros raw v Hc Hp Hv. destruct (H1 raw v Hc Hp Hv) as (He & Hb).
    split; [set_solver|]. intros Hbt. destruct (Hb Hbt) as [[a [b Hab]] Hu].
    split; [exists a, b; set_solver|]. intros Hrm. destruct (Hu Hrm) as [Hu' Hst].
    split; [set_solver|]. by apply scan_files_stat_none.
  - destruct (scan_file_ok P fails now s g) as (_ & _ & _ & _ & _ & [d [Hl _]] & Hst).
    destruct (Hst f ltac:(congruence)) as [Hs1 Hm1].
    destruct (IH (scan_file P fails now s g)) as [d' [Hl' [Hr' H']]].
    { set_solver. } { by rewrite Hm1. } { by rewrite Hs1. } { done. }
    exists (d ++ d'). rewrite Hl', Hl, app_assoc. split; [done|]. split; [set_solver|].
    intros raw v Hc Hp Hv. destruct (H' raw v Hc Hp Hv) as (He & Hb).
    split; [set_solver|]. intros Hbt. destruct (Hb Hbt) as [[a [b Hab]] Hu].
    split; [exists a, b; set_solver|]. intros Hrm. destruct (Hu Hrm) as [Hu' Hsn].
    split; [set_solver|done].
Qed.

(** C6 (as stated, refuted): a file name already in the Processed-File Set
    (here a poison file, later rewritten by the producer) is skipped while
    young without being removed from the set, and no later scan consumes
    it. *)
Lemma rewritten_poison_file_never_retried :
  let s1 := run demo_parse
              [EWrite "tournament_1.json" (mkFile 0 (Some "garbage") true); ETick 1000 [];
               EWrite "tournament_1.json" (mkFile 2000 (Some "ev_a") true); EConnect 1%nat]
              (init false (Some [])) in
  let s2 := step demo_parse (ETick 2010 []) s1 in
  let s3 := step demo_parse (ETick 5000 []) s2 in
  bool_decide ("tournament_1.json" ∈ processedFiles s2) = true /\
  logs s2 = logs s1 ++ [LListDir] /\ logs s3 = logs s2 ++ [LListDir] /\
  received 1 (wire s3) = [connected_envelope] /\
  stat_file s3 "tournament_1.json" = Some (mkFile 2000 (Some "ev_a") true).
Proof. vm_compute. repeat split; reflexivity. Qed.

Lemma find_file_write_other f g r (dir : list (string * FileRec)) :
  g <> f ->
  find_file f (if bool_decide (g ∈ map fst dir)
               then map (fun e => if bool_decide (e.1 = g) then (g, r) else e) dir
               else dir ++ [(g, r)]) = find_file f dir.
Proof.
  intros Hgf. case_bool_decide as Hgin; clear Hgin.
  - induction dir as [|[n r'] dir IH]; [done|]. simpl.
    case_bool_decide as Hn; simpl.
    + subst n. rewrite !(bool_decide_false (g = f)) by done. apply IH.
    + by rewrite IH.
  - induction dir as [|[n r'] dir IH]; simpl.
    + by rewrite bool_decide_false.
    + case_bool_decide; [done|]. by rewrite IH.
Qed.

Lemma step_spool_nontick P ev s :
  (forall now fails, ev <> ETick now fails) -> (forall g r, ev <> EWrite g r) ->
  spool (step P ev s) = spool s.
Proof.
  intros Ht Hw. destruct ev; simpl; try done.
  - destruct (redisPc s); try done. unfold on_redis_message.
    destruct (P message) as [v|]; [|done]. destruct (read_event_field v); [|done].
    destruct (broadcast_throws v); [done|]. apply broadcast_fields.
  - exfalso. by eapply Ht.
  - unfold redis_step. repeat case_match; done.
  - exfalso. by eapply Hw.
Qed.

Lemma step_nontick_quiet P ev s f :
  (forall now fails, ev <> ETick now fails) ->
  processedFiles (step P ev s) = processedFiles s /\
  exists d, logs (step P ev s) = logs s ++ d /\ forall x, x ∈ d -> ~ file_entry f x.
Proof.
  intros Hev.
  assert (Hnil : exists d, logs s = logs s ++ d /\ forall x, x ∈ d -> ~ file_entry f x).
  { exists []. rewrite app_nil_r. split; [done|]. set_solver. }
  destruct ev; simpl; try (split; [done|exact Hnil]).
  - destruct (redisPc s); try (split; [done|exact Hnil]). unfold on_redis_message.
    destruct (P message) as [v|]; [destruct (read_event_field v)|].
    + destruct (broadcast_throws v).
      { split; [done|]. exists [LRedisParseError message]. split; [done|]. not_file_entry. }
      destruct (broadcast_fields fails v s) as (_ & _ & _ & _ & -> & _ & _ & [d [Hl Hd]]).
      split; [done|]. exists d. split; [done|]. intros x Hx Hfe. unfold file_entry in Hfe.
      destruct (Hd x Hx) as [[? ->]|[[? ->]|[? [? [? ->]]]]]; naive_solver.
    + split; [done|]. exists [LRedisParseError message]. split; [done|]. not_file_entry.
    + split; [done|]. exists [LRedisParseError message]. split; [done|]. not_file_entry.
  - exfalso. by apply (Hev now fails).
  - unfold redis_step. repeat case_match; (split; [done|exact Hnil]).
Qed.

Lemma step_before_aging P ev s f r :
  f ∉ processedFiles s -> stat_file s f = Some r -> before_aging_ev f r s ev = true ->
  (f ∉ processedFiles (step P ev s)) /\ stat_file (step P ev s) f = Some r /\
  exists d, logs (step P ev s) = logs s ++ d /\ forall x, x ∈ d -> ~ file_entry f x.
Proof.
  intros Hf Hs Hb.
  pose proof (step_nontick_quiet P ev s f) as Hq.
  pose proof (step_spool_nontick P ev s) as Hsq.
  destruct ev as [ws|ws|ws|ws|m fl|now fails|rv|g rr].
  6: { clear Hq Hsq. simpl in *. unfold poll_tick. destruct (redisAvailable s) eqn:Ha.
       { split; [done|]. split; [done|]. exists []. rewrite app_nil_r. split; [done|]. set_solver. }
       simpl in Hb. apply Z.ltb_lt in Hb.
       unfold stat_file in Hs. destruct (spool s) as [dir|] eqn:Hsp; [|done].
       destruct (scan_files_young P fails now (filter (fun f => is_event_file f = true) (map fst dir))
                   (add_log LListDir s) f r) as (Hf' & Hs' & _ & [d [Hl Hd]]).
       { done. } { unfold stat_file. simpl. by rewrite Hsp. } { done. }
       split; [done|]. split; [done|].
       exists (LListDir :: d). rewrite Hl. simpl. split; [by rewrite <- app_assoc|].
       intros x Hx. apply elem_of_cons in Hx as [->|Hx]; [|auto].
       unfold file_entry. naive_solver. }
  7: { clear Hq Hsq. simpl in *. apply negb_true_iff, String.eqb_neq in Hb.
       split; [done|]. split.
       - unfold stat_file in *. simpl. destruct (spool s); [|done].
         by rewrite find_file_write_other.
       - exists []. rewrite app_nil_r. split; [done|]. set_solver. }
  all: destruct Hq as [Hp Hd]; [intros ? ? [=]|].
  all: rewrite Hp; split; [done|]; split; [|exact Hd].
  all: unfold stat_file in *; rewrite Hsq; [done|intros ? ? [=]|intros ? ? [=]].
Qed.

Lemma run_before_aging P tr s f r :
  f ∉ processedFiles s -> stat_file s f = Some r -> before_aging P f r tr s = true ->
  (f ∉ processedFiles (run P tr s)) /\ stat_file (run P tr s) f = Some r /\
  exists d, logs (run P tr s) = logs s ++ d /\ forall x, x ∈ d -> ~ file_entry f x.
Proof.
  revert s. induction tr as [|ev tr IH]; intros s Hf Hs Hb; simpl.
  - split; [done|]. split; [done|]. exists []. rewrite app_nil_r. split; [done|]. set_solver.
  - simpl in Hb. apply andb_true_iff in Hb as [Hb1 Hb2].
    destruct (step_before_aging P ev s f r Hf Hs Hb1) as (Hf1 & Hs1 & [d [Hl Hd]]).
    destruct (IH (step P ev s) Hf1 Hs1 Hb2) as (Hf2 & Hs2 & [d' [Hl' Hd']]).
    split; [done|]. split; [done|]. exists (d ++ d').
    rewrite Hl', Hl, app_assoc. split; [done|].
    intros x Hx. apply elem_of_app in Hx as [Hx|Hx]; auto.
Qed.

(** C6 (amended): a spool file not yet in the Processed-File Set stays out
    of it, stays on disk unchanged and is neither read, broadcast nor
    deleted over any run of the process in which every scan that runs sees
    it within the grace window (and the producer does not rewrite it).  The
    next scan that runs after it has aged past the window reads it and, when
    it decodes to an envelope, logs it as a file event; unless
    [`Event: ${event.event}`] throws it broadcasts it, and unless
    [fs.unlinkSync] throws it deletes it.  A file name already in the set
    stays in it and its file is never read, broadcast or deleted. *)
Theorem young_new_spool_file_retried P s tr f r fails2 now2 :
  is_event_file f = true -> f ∉ processedFiles s -> stat_file s f = Some r ->
  before_aging P f r tr s = true ->
  let s1 := run P tr s in
  ((f ∉ processedFiles s1) /\ stat_file s1 f = Some r /\
   exists d, logs s1 = logs s ++ d /\ forall x, x ∈ d -> ~ file_entry f x) /\
  (redisAvailable s1 = false -> (50 <= now2 - mtimeMs r)%Z ->
   let s2 := poll_tick P fails2 now2 s1 in
   exists d, logs s2 = logs s1 ++ d /\ LReadFile f ∈ d /\
     forall raw v, contents r = Some raw -> P raw = Some v -> v <> JNull ->
       LFileEvent f ∈ d /\
       (broadcast_throws v = false ->
        (exists a b, LBroadcast v a b ∈ d) /\
        (removable r = true -> LUnlinkFile f ∈ d /\ stat_file s2 f = None))) /\
  (forall s' tr', f ∈ processedFiles s' ->
     f ∈ processedFiles (run P tr' s') /\
     exists d, logs (run P tr' s') = logs s' ++ d /\ forall x, x ∈ d -> ~ file_entry f x).
Proof.
  intros Hev Hf Hs Hb. cbv zeta.
  destruct (run_before_aging P tr s f r Hf Hs Hb) as (Hf1 & Hs1 & Hl1).
  split; [done|]. split; [|intros s' tr' Hin; by apply run_no_file_entry].
  intros Ha Ht.
  remember (run P tr s) as s1 eqn:E1. clear E1.
  unfold stat_file in Hs1. destruct (spool s1) as [dir1|] eqn:Hsp1; [|done].
  assert (Hs2 : poll_tick P fails2 now2 s1 =
                scan_files P fails2 now2 (filter (fun f => is_event_file f = true) (map fst dir1))
                  (add_log LListDir s1)).
  { unfold poll_tick. by rewrite Ha, Hsp1. }
  destruct (scan_files_aged P fails2 now2 (filter (fun f => is_event_file f = true) (map fst dir1))
              (add_log LListDir s1) f r) as [d2 [Hl2 [Hr2 H2]]].
  { apply list_elem_of_filter. split; [done|]. by eapply find_file_in. }
  { done. } { unfold stat_file. simpl. by rewrite Hsp1. } { done. }
  rewrite <- Hs2 in Hl2, H2.
  exists (LListDir :: d2). rewrite Hl2. simpl. split; [by rewrite <- app_assoc|].
  split; [set_solver|].
  intros raw v Hc Hp Hv. destruct (H2 raw v Hc Hp Hv) as (He & Hbt).
  split; [set_solver|]. intros Hn. destruct (Hbt Hn) as [[a [b Hab]] Hu].
  split; [exists a, b; set_solver|]. intros Hrm. destruct (Hu Hrm) as [Hu' Hst].
  split; [set_solver|done].
Qed.

(** In websocket-server.js one broadcast call delivers the envelope exactly
    once to every registered open socket whose send does not throw, however
    the other sends behave, unless [`Event: ${event.event}`] throws first. *)
Lemma broadcast_delivers_open_client fails e s c :
  broadcast_throws e = false ->
  NoDup (clients s) -> c ∈ clients s -> state_of (ready s) c = OPEN -> c ∉ fails ->
  received c (wire (broadcast fails e s)) = received c (wire s) ++ [e].
Proof.
  intros He Hnd Hin Ho Hf. rewrite broadcast_received, targets_no_throw by done. f_equal.
  apply received_map_in.
  - by apply NoDup_filter.
  - apply list_elem_of_filter. split; [|done]. split; [by rewrite Ho|done].
Qed.

(** ** Further properties of the code *)

(** X1: the reconnect delay the Redis clients are given grows by
    [REDIS_RETRY_INTERVAL] per retry and is capped at 30 s, reached from
    the sixth retry on. *)
Theorem reconnect_delay_capped retries retries' :
  (0 <= retries)%Z -> (retries <= retries')%Z ->
  (0 <= reconnectStrategy retries <= 30000)%Z /\
  (reconnectStrategy retries <= reconnectStrategy retries')%Z /\
  ((retries <= 6)%Z -> reconnectStrategy retries = (retries * 5000)%Z) /\
  ((6 <= retries)%Z -> reconnectStrategy retries = 30000%Z).
Proof. intros H0 Hle. unfold reconnectStrategy, REDIS_RETRY_INTERVAL. lia. Qed.

Lemma REDIS_HOST_truthy h : str_truthy (REDIS_HOST h) = true.
Proof.
  destruct h as [h|]; simpl; [|done].
  destruct (str_truthy h) eqn:E; [done|reflexivity].
Qed.

(** X2: [REDIS_HOST] can never switch Redis off (an empty value falls back
    to 127.0.0.1); Redis is disabled exactly when [REDIS_PORT] is set to a
    non-empty text that [Number] turns into 0 or [NaN].  [PORT] is never
    0 or [NaN]: it falls back to 8081, also when the variable is unset. *)
Theorem redis_enabled_iff_port Number env_host env_port env_ws :
  (REDIS_ENABLED Number env_host env_port = false <->
   exists v, env_port = Some v /\ v <> "" /\ num_truthy (Number v) = false) /\
  num_truthy (PORT Number env_ws) = true /\
  PORT Number None = Finite 8081.
Proof.
  split; [|split].
  - unfold REDIS_ENABLED. rewrite REDIS_HOST_truthy. simpl.
    unfold REDIS_PORT. destruct env_port as [v|]; simpl.
    + unfold str_truthy. destruct (String.eqb_spec v "") as [->|Hv]; simpl.
      * split; [done|]. intros (v' & [= <-] & Hne & _). done.
      * split; [eauto|]. intros (v' & [= <-] & _ & H). done.
    + split; [done|]. intros (v & ? & _). done.
  - unfold PORT. cbv zeta.
    destruct (num_truthy (match env_ws with Some v => Number v | None => NaN end)) eqn:E;
      [exact E|reflexivity].
  - reflexivity.
Qed.

(** ** Broadcast counts *)

Lemma broadcast_loop_counts fails e rs cs w sent failed lg :
  match broadcast_loop fails e rs cs w sent failed lg with
  | (w', sent', failed', _) =>
      length w' = length w + (sent' - sent) /\ sent <= sent' /\
      sent' + failed' = sent + failed + length cs
  end.
Proof.
  revert w sent failed lg.
  induction cs as [|c cs IH]; intros w sent failed lg; simpl; [lia|].
  destruct (ReadyState_eqb (state_of rs c) OPEN); [case_bool_decide|].
  - specialize (IH w sent (S failed) (lg ++ [LSendError c])).
    destruct (broadcast_loop _ _ _ _ _ _ _ _) as [[[w' s'] f'] lg']. lia.
  - specialize (IH (w ++ [(c, e)]) (S sent) failed lg).
    destruct (broadcast_loop _ _ _ _ _ _ _ _) as [[[w' s'] f'] lg'].
    rewrite length_app in IH. simpl in IH. lia.
  - specialize (IH w sent (S failed) (lg ++ [LNotReady c])).
    destruct (broadcast_loop _ _ _ _ _ _ _ _) as [[[w' s'] f'] lg']. lia.
Qed.

(** X3: a broadcast whose [`Event: ${event.event}`] (line 72) throws
    changes nothing; every other broadcast ends its log with one summary
    line whose [sent] count is the number of messages it put on the wire
    and whose [sent + failed] is the number of registered sockets. *)
Theorem broadcast_summary_counts fails e s :
  (broadcast_throws e = true -> broadcast fails e s = s) /\
  (broadcast_throws e = false ->
   exists lg sent failed,
     logs (broadcast fails e s) = lg ++ [LBroadcast e sent failed] /\
     length (wire (broadcast fails e s)) = length (wire s) + sent /\
     sent + failed = length (clients s)).
Proof.
  unfold broadcast. split; intros He; rewrite He; [done|].
  pose proof (broadcast_loop_counts fails e (ready s) (clients s) (wire s) 0 0 (logs s)) as H.
  destruct (broadcast_loop _ _ _ _ _ _ _ _) as [[[w' sent] failed] lg'].
  simpl. exists lg', sent, failed. split; [done|]. lia.
Qed.

Lemma broadcast_loop_not_ready fails e rs cs w sent failed lg c :
  c ∈ cs -> ReadyState_eqb (state_of rs c) OPEN = false ->
  match broadcast_loop fails e rs cs w sent failed lg with
  | (_, _, _, lg') => exists d, lg' = lg ++ d /\ LNotReady c ∈ d
  end.
Proof.
  intros Hin Ho. revert w sent failed lg.
  induction cs as [|x cs IH]; intros w sent failed lg; [set_solver|]. simpl.
  pose proof (broadcast_loop_spec fails e rs cs) as Hs.
  apply elem_of_cons in Hin as [<-|Hin].
  - rewrite Ho. specialize (Hs w sent (S failed) (lg ++ [LNotReady c])).
    destruct (broadcast_loop _ _ _ _ _ _ _ _) as [[[w' s'] f'] lg'].
    destruct Hs as [_ [d [-> _]]]. exists (LNotReady c :: d).
    split; [by rewrite <- app_assoc|]. set_solver.
  - specialize (IH Hin).
    destruct (ReadyState_eqb (state_of rs x) OPEN); [case_bool_decide|].
    + specialize (IH w sent (S failed) (lg ++ [LSendError x])).
      destruct (broadcast_loop _ _ _ _ _ _ _ _) as [[[w' s'] f'] lg'].
      destruct IH as [d [-> Hd]]. exists (LSendError x :: d).
      split; [by rewrite <- app_assoc|]. set_solver.
    + apply IH.
    + specialize (IH w sent (S failed) (lg ++ [LNotReady x])).
      destruct (broadcast_loop _ _ _ _ _ _ _ _) as [[[w' s'] f'] lg'].
      destruct IH as [d [-> Hd]]. exists (LNotReady x :: d).
      split; [by rewrite <- app_assoc|]. set_solver.
Qed.

(** X4: a registered socket that is not [OPEN] (still connecting, or in
    its closing handshake) gets nothing from a broadcast; the broadcast
    logs it as not ready and goes on (unless [`Event: ${event.event}`]
    throws before the loop). *)
Theorem broadcast_skips_unready_socket fails e s c :
  c ∈ clients s -> state_of (ready s) c <> OPEN ->
  received c (wire (broadcast fails e s)) = received c (wire s) /\
  (broadcast_throws e = false ->
   exists d, logs (broadcast fails e s) = logs s ++ d /\ LNotReady c ∈ d).
Proof.
  intros Hin Ho.
  assert (Hb : ReadyState_eqb (state_of (ready s) c) OPEN = false)
    by (destruct (state_of (ready s) c); done).
  split.
  - rewrite broadcast_received, received_map_notin, app_nil_r; [done|].
    intros Hf. apply targets_sub, list_elem_of_filter in Hf as [[Hd _] _]. congruence.
  - pose proof (broadcast_loop_not_ready fails e (ready s) (clients s) (wire s) 0 0 (logs s) c Hin Hb)
      as H. intros He.
    unfold broadcast. rewrite He.
    destruct (broadcast_loop _ _ _ _ _ _ _ _) as [[[w' sent] failed] lg'].
    destruct H as [d [-> Hd]]. simpl. exists (d ++ [LBroadcast e sent failed]).
    split; [by rewrite app_assoc|]. set_solver.
Qed.

(** ** The connection registry *)

Lemma step_nodup P ev s : NoDup (clients s) -> NoDup (clients (step P ev s)).
Proof.
  intros Hnd. destruct ev; simpl; try done.
  - unfold set_add. case_bool_decide as Hin; [done|].
    apply NoDup_app. split; [done|]. split; [set_solver|]. apply NoDup_singleton.
  - by apply NoDup_filter.
  - by apply NoDup_filter.
  - destruct (redisPc s); try done.
    by destruct (on_redis_message_frame P fails message s) as (-> & _).
  - by destruct (poll_tick_frame P fails now s) as (-> & _).
  - unfold redis_step. by repeat case_match.
Qed.

Lemma run_nodup P tr s : NoDup (clients s) -> NoDup (clients (run P tr s)).
Proof.
  revert s. induction tr as [|ev tr IH]; intros s Hs; simpl; [done|].
  by apply IH, step_nodup.
Qed.

(** X5: in every reachable state the registry holds each socket at most
    once, so a broadcast whose [`Event: ${event.event}`] does not throw
    writes an envelope exactly once to each registered [OPEN] socket whose
    send does not throw. *)
Theorem reachable_broadcast_delivers_once P en dir tr fails e c :
  let s := run P tr (init en dir) in
  NoDup (clients s) /\
  (broadcast_throws e = false ->
   c ∈ clients s -> state_of (ready s) c = OPEN -> c ∉ fails ->
   received c (wire (broadcast fails e s)) = received c (wire s) ++ [e]).
Proof.
  simpl. assert (Hnd : NoDup (clients (run P tr (init en dir)))).
  { apply run_nodup. constructor. }
  split; [done|]. intros. by apply broadcast_delivers_open_client.
Qed.

Lemma step_gone P ev s c :
  c ∉ clients s -> no_connect c ev = true ->
  (c ∉ clients (step P ev s)) /\ received c (wire (step P ev s)) = received c (wire s).
Proof.
  intros Hc Ht. destruct ev; simpl in *; try done.
  - apply negb_true_iff, Nat.eqb_neq in Ht. split.
    + unfold set_add. case_bool_decide; set_solver.
    + rewrite received_app. unfold received at 2. simpl.
      rewrite filter_cons, decide_False by done. simpl. by rewrite app_nil_r.
  - split; [|done]. unfold set_delete. intros Hin.
    apply list_elem_of_filter in Hin as [_ ?]. done.
  - split; [|done]. unfold set_delete. intros Hin.
    apply list_elem_of_filter in Hin as [_ ?]. done.
  - destruct (redisPc s); try done.
    destruct (on_redis_message_frame P fails message s) as (-> & _ & _ & _ & [dw [-> Hdw]] & _).
    split; [done|]. rewrite received_app, (received_nil_forall c (clients s) dw); [|done..].
    by rewrite app_nil_r.
  - destruct (poll_tick_frame P fails now s) as (-> & _ & _ & _ & [dw [-> Hdw]] & _).
    split; [done|]. rewrite received_app, (received_nil_forall c (clients s) dw); [|done..].
    by rewrite app_nil_r.
  - unfold redis_step. by repeat case_match.
Qed.

Lemma run_gone P tr s c :
  c ∉ clients s -> forallb (no_connect c) tr = true ->
  received c (wire (run P tr s)) = received c (wire s).
Proof.
  revert s. induction tr as [|ev tr IH]; intros s Hc Ht; simpl in *; [done|].
  apply andb_true_iff in Ht as [Ht1 Ht2].
  destruct (step_gone P ev s c Hc Ht1) as [Hc' Hr'].
  rewrite IH; done.
Qed.

(** X6: once the close handler or the error handler of a socket has run,
    no later broadcast, tick or other event writes to that socket again,
    as long as the server does not accept it anew. *)
Theorem closed_socket_gets_nothing P s c tr :
  forallb (no_connect c) tr = true ->
  received c (wire (run P (EClose c :: tr) s)) = received c (wire s) /\
  received c (wire (run P (ESocketError c :: tr) s)) = received c (wire s).
Proof.
  intros Ht. simpl.
  assert (Hd : c ∉ set_delete c (clients s)).
  { unfold set_delete. intros Hin. apply list_elem_of_filter in Hin as [? _]. done. }
  split; (rewrite run_gone; [done|done|done]).
Qed.


(** ** Redis startup and the fallback gate *)

Lemma step_disabled P ev s :
  redisPc s = RDisabled -> redisAvailable s = false ->
  redisPc (step P ev s) = RDisabled /\ redisAvailable (step P ev s) = false.
Proof.
  intros Hpc Ha. destruct (step_redis_frame P ev s) as [[r ->]|[-> ->]]; [|done].
  simpl. unfold redis_step. by rewrite Hpc.
Qed.

(** X7: when [REDIS_ENABLED] is false, [startRedis] returns at once and the
    availability flag stays false for the whole life of the process, so
    every poll tick scans the spool and no Redis message is ever relayed. *)
Theorem redis_disabled_never_available P dir tr :
  let s := run P tr (init false dir) in
  redisAvailable s = false /\ redisPc s = RDisabled.
Proof.
  simpl. cut (forall s, redisPc s = RDisabled -> redisAvailable s = false ->
                redisAvailable (run P tr s) = false /\ redisPc (run P tr s) = RDisabled).
  { intros H. by apply H. }
  induction tr as [|ev tr IH]; intros s Hpc Ha; simpl; [done|].
  destruct (step_disabled P ev s Hpc Ha). by apply IH.
Qed.

Lemma redis_down_step P ev s : redis_down s -> redis_down (step P ev s).
Proof.
  intros [Ha Hpc]. destruct (step_redis_frame P ev s) as [[r ->]|[Ha' Hp']].
  - simpl. unfold redis_step, redis_down.
    destruct Hpc as [E|[E|E]]; rewrite E; destruct r as [[]|[]|[]| |]; simpl;
      rewrite ?E, ?Ha; intuition congruence.
  - unfold redis_down. by rewrite Ha', Hp'.
Qed.

(** X8: once both broker connections were made, a Redis error event (or a
    failed subscribe) turns the flag off for good: no later event of any
    kind sets it back, so the poller keeps scanning the spool even after
    the broker is reachable again. *)
Theorem redis_flag_never_recovers P tr s :
  redisAvailable s = false ->
  (redisPc s = RAwaitSubscribe \/ redisPc s = RSubscribed \/ redisPc s = RFailed) ->
  redisAvailable (run P tr s) = false.
Proof.
  intros Ha Hpc. assert (H : redis_down s) by (split; done).
  revert s Ha Hpc H. induction tr as [|ev tr IH]; intros s Ha Hpc H; simpl; [done|].
  pose proof (redis_down_step P ev s H) as [Ha' Hpc'].
  by apply IH.
Qed.

(** ** Spool files *)

Lemma scan_files_other P fails now files s f :
  f ∉ files ->
  (f ∈ processedFiles (scan_files P fails now files s) <-> f ∈ processedFiles s) /\
  exists d, logs (scan_files P fails now files s) = logs s ++ d /\
            forall x, x ∈ d -> ~ file_entry f x.
Proof.
  revert s. induction files as [|g files IH]; intros s Hf; simpl.
  - split; [done|]. exists []. rewrite app_nil_r. split; [done|]. set_solver.
  - assert (Hne : f <> g) by set_solver.
    destruct (scan_file_ok P fails now s g) as (_ & _ & _ & _ & _ & [d [Hl Hd]] & Hst).
    destruct (IH (scan_file P fails now s g)) as [Hp [d' [Hl' Hd']]]; [set_solver|].
    split; [rewrite Hp; by apply Hst|].
    exists (d ++ d'). rewrite Hl', Hl, app_assoc. split; [done|].
    intros x Hx. apply elem_of_app in Hx as [Hx|Hx]; [apply Hd|apply Hd']; done.
Qed.

Lemma step_other_file P ev s f :
  is_event_file f = false ->
  (f ∈ processedFiles (step P ev s) <-> f ∈ processedFiles s) /\
  exists d, logs (step P ev s) = logs s ++ d /\ forall x, x ∈ d -> ~ file_entry f x.
Proof.
  intros Hf. pose proof (step_nontick_quiet P ev s f) as Hq.
  destruct ev as [ws|ws|ws|ws|m fl|now fails|r|g rr].
  all: cycle 5.
  2-8: (destruct Hq as [-> Hd]; [intros ? ? [=]|done]).
  clear Hq.
  simpl. unfold poll_tick. destruct (redisAvailable s).
  { split; [done|]. exists []. rewrite app_nil_r. split; [done|]. set_solver. }
  destruct (spool s) as [dir|].
  - destruct (scan_files_other P fails now (filter (fun f => is_event_file f = true) (map fst dir))
                (add_log LListDir s) f) as [Hp [d [Hl Hd]]].
    { intros Hin. apply list_elem_of_filter in Hin as [? _]. congruence. }
    split; [done|]. rewrite Hl. exists (LListDir :: d).
    split; [simpl; by rewrite <- app_assoc|].
    intros x Hx. apply elem_of_cons in Hx as [->|Hx]; [|auto].
    unfold file_entry. naive_solver.
  - split; [done|]. exists [LListDir; LDirError]. split; [simpl; by rewrite <- app_assoc|].
    intros x Hx Hfe. unfold file_entry in Hfe. set_solver.
Qed.

(** X9: a spool file whose name is not [tournament_*.json] is never read,
    broadcast or deleted by the process, and never enters the
    Processed-File Set, whatever happens. *)
Theorem non_event_file_untouched P en dir tr f :
  is_event_file f = false ->
  let s := run P tr (init en dir) in
  (f ∉ processedFiles s) /\ forall x, x ∈ logs s -> ~ file_entry f x.
Proof.
  intros Hf. simpl.
  cut (forall s, f ∉ processedFiles s -> (forall x, x ∈ logs s -> ~ file_entry f x) ->
         (f ∉ processedFiles (run P tr s)) /\ forall x, x ∈ logs (run P tr s) -> ~ file_entry f x).
  { intros H. apply H; simpl; set_solver. }
  induction tr as [|ev tr IH]; intros s Hp Hl; simpl; [done|].
  destruct (step_other_file P ev s f Hf) as [Hp' [d [Hl' Hd]]].
  apply IH.
  - by rewrite Hp'.
  - rewrite Hl'. intros x Hx. apply elem_of_app in Hx as [Hx|Hx]; auto.
Qed.

Lemma count_entries_app q l1 l2 :
  count_entries q (l1 ++ l2) = count_entries q l1 + count_entries q l2.
Proof. unfold count_entries. by rewrite filter_app, length_app. Qed.

Lemma count_entries_cons q x l :
  count_entries q (x :: l) = (if q x then 1 else 0) + count_entries q l.
Proof.
  unfold count_entries. rewrite filter_cons.
  destruct (q x); case_decide; simpl; congruence.
Qed.

Lemma count_entries_quiet f d :
  (forall x, x ∈ d -> ~ file_entry f x) ->
  count_entries (is_read f) d = 0 /\ count_entries (is_file_event f) d = 0.
Proof.
  induction d as [|x d IH]; intros Hd; [done|].
  rewrite !count_entries_cons.
  destruct IH as [-> ->]; [intros y Hy; apply Hd; set_solver|].
  assert (Hx : ~ file_entry f x) by (apply Hd; set_solver).
  unfold file_entry in Hx.
  destruct x; simpl; try done; case_bool_decide; subst; naive_solver.
Qed.

Lemma count_entries_none f d :
  (forall x, x ∈ d -> is_read f x = false /\ is_file_event f x = false) ->
  count_entries (is_read f) d = 0 /\ count_entries (is_file_event f) d = 0.
Proof.
  induction d as [|x d IH]; intros Hd; [done|].
  rewrite !count_entries_cons.
  destruct IH as [-> ->]; [intros y Hy; apply Hd; set_solver|].
  destruct (Hd x ltac:(set_solver)) as [-> ->]. done.
Qed.

(** The outcomes of one scan of a new file [f]. *)
Lemma scan_file_outcomes P fails now s f :
  f ∉ processedFiles s ->
  let s' := scan_file P fails now s f in
  s' = s \/
  (f ∈ processedFiles s' /\ stat_file s' f = stat_file s f /\
   (logs s' = logs s ++ [LFileError f] \/ logs s' = logs s ++ [LReadFile f; LFileError f])) \/
  (f ∈ processedFiles s' /\ exists bd,
     logs s' = logs s ++ [LReadFile f; LFileEvent f] ++ bd /\
     forall x, x ∈ bd -> is_read f x = false /\ is_file_event f x = false).
Proof.
  intros Hf. simpl. unfold scan_file. rewrite bool_decide_false by done.
  change (stat_file (set_processed ({[f]} ∪ processedFiles s) s) f) with (stat_file s f).
  destruct (stat_file s f) as [r|] eqn:Hs.
  { destruct (now - mtimeMs r <? 50)%Z.
    { left. destruct s. unfold set_processed. simpl. f_equal. set_solver. }
    destruct (contents r) as [raw|].
    2: { right; left. simpl. split; [set_solver|]. split; [done|]. right.
         by rewrite <- app_assoc. }
    destruct (P raw) as [v|].
    2: { right; left. simpl. split; [set_solver|]. split; [done|]. right.
         by rewrite <- app_assoc. }
    destruct (read_event_field v).
    2: { right; left. simpl. split; [set_solver|]. split; [done|]. right.
         by rewrite <- app_assoc. }
    right; right.
    set (s3 := add_log (LFileEvent f) (add_log (LReadFile f)
                 (set_processed ({[f]} ∪ processedFiles s) s))).
    assert (Hq : forall x, x ∈ [LUnlinkFile f; LFileError f] ->
                   is_read f x = false /\ is_file_event f x = false).
    { intros x Hx. apply list_elem_of_In in Hx as [<-|[<-|[]]]; done. }
    destruct (broadcast_throws v).
    { split; [simpl; set_solver|]. exists [LFileError f].
      split; [simpl; by rewrite <- !app_assoc|]. intros x Hx. apply Hq. set_solver. }
    destruct (broadcast_fields fails v s3) as (_ & _ & _ & _ & Hp & _ & _ & [d [Hl Hd]]).
    assert (Hd' : forall x, x ∈ d -> is_read f x = false /\ is_file_event f x = false).
    { intros x Hx. destruct (Hd x Hx) as [[? ->]|[[? ->]|[? [? [? ->]]]]]; done. }
    destruct (unlink_ok _ f).
    - unfold unlink_file. simpl. rewrite Hp. split; [set_solver|].
      exists (d ++ [LUnlinkFile f]). split.
      + rewrite Hl. simpl. by rewrite <- !app_assoc.
      + intros x Hx. apply elem_of_app in Hx as [Hx|Hx]; [by apply Hd'|apply Hq; set_solver].
    - simpl. rewrite Hp. split; [set_solver|].
      exists (d ++ [LUnlinkFile f; LFileError f]). split.
      + rewrite Hl. simpl. by rewrite <- !app_assoc.
      + intros x Hx. apply elem_of_app in Hx as [Hx|Hx]; [by apply Hd'|by apply Hq]. }
  right; left. simpl. split; [set_solver|]. split; [done|]. left. done.
Qed.

Lemma read_once_quiet f s s' d :
  read_once f s -> processedFiles s ⊆ processedFiles s' -> logs s' = logs s ++ d ->
  (forall x, x ∈ d -> ~ file_entry f x) -> read_once f s'.
Proof.
  intros [H0 [H1 H2]] Hsub Hl Hd. destruct (count_entries_quiet f d Hd) as [Hr He].
  unfold read_once. rewrite Hl, !count_entries_app, Hr, He, !Nat.add_0_r.
  split; [|done]. intros Hf. apply H0. set_solver.
Qed.

Lemma scan_file_read_once P fails now s g f :
  read_once f s -> read_once f (scan_file P fails now s g).
Proof.
  intros Hi. destruct (decide (f ∈ processedFiles s)) as [Hf|Hf].
  { destruct (scan_file_no_file_entry P fails now s g f Hf) as [d [Hl Hd]].
    eapply read_once_quiet; [exact Hi|apply scan_file_processed_mono|exact Hl|exact Hd]. }
  destruct (decide (g = f)) as [->|Hne].
  - destruct Hi as [H0 _]. destruct (H0 Hf) as [Hr He].
    destruct (scan_file_outcomes P fails now s f Hf)
      as [->|[[Hp [_ [Hl|Hl]]]|[Hp [bd [Hl Hbd]]]]].
    + split; [intros; by rewrite Hr, He|]. lia.
    + unfold read_once. rewrite Hl, !count_entries_app, !count_entries_cons, Hr, He.
      simpl. split; [intros Hn; exfalso; by apply Hn|unfold count_entries; simpl; lia].
    + unfold read_once. rewrite Hl, !count_entries_app, !count_entries_cons, Hr, He.
      simpl. rewrite bool_decide_true by done. split; [intros Hn; exfalso; by apply Hn|unfold count_entries; simpl; lia].
    + destruct (count_entries_none f bd Hbd) as [Hr' He'].
      unfold read_once. rewrite Hl, !count_entries_app, !count_entries_cons, Hr, He, Hr', He'.
      simpl. rewrite !bool_decide_true by done. split; [intros Hn; exfalso; by apply Hn|unfold count_entries; simpl; lia].
  - destruct (scan_file_ok P fails now s g) as (_ & _ & _ & _ & _ & [d [Hl Hd]] & _).
    eapply read_once_quiet; [exact Hi|apply scan_file_processed_mono|exact Hl|].
    intros x Hx. apply Hd; [done|done].
Qed.

Lemma step_read_once P ev s f : read_once f s -> read_once f (step P ev s).
Proof.
  intros Hi. pose proof (step_nontick_quiet P ev s f) as Hq.
  destruct ev as [ws|ws|ws|ws|m fl|now fails|r|g rr].
  all: cycle 5.
  2-8: (destruct Hq as [Hp [d [Hl Hd]]]; [intros ? ? [=]|];
        eapply read_once_quiet; [exact Hi| |exact Hl|exact Hd]; by rewrite Hp).
  clear Hq. simpl. unfold poll_tick. destruct (redisAvailable s); [done|].
  assert (H1 : read_once f (add_log LListDir s)).
  { eapply (read_once_quiet f s _ [LListDir]); [exact Hi|done|done|].
    intros x Hx. apply list_elem_of_singleton in Hx as ->. unfold file_entry. naive_solver. }
  destruct (spool s) as [dir|].
  - generalize (filter (fun f => is_event_file f = true) (map fst dir)).
    intros files. revert H1. generalize (add_log LListDir s).
    induction files as [|g files IH]; intros s1 H1; simpl; [done|].
    by apply IH, scan_file_read_once.
  - eapply (read_once_quiet f _ _ [LDirError]); [exact H1|done|done|].
    intros x Hx. apply list_elem_of_singleton in Hx as ->. unfold file_entry. naive_solver.
Qed.

(** X10: over the whole life of the process a spool file name is read at
    most once and announced as a file event (then broadcast) at most once,
    however often it reappears in the directory listing. *)
Theorem spool_file_read_at_most_once P en dir tr f :
  let s := run P tr (init en dir) in
  count_entries (is_read f) (logs s) <= 1 /\ count_entries (is_file_event f) (logs s) <= 1.
Proof.
  simpl. cut (forall s, read_once f s -> read_once f (run P tr s)).
  { intros H. destruct (H (init en dir)) as [_ H2]; [|done].
    split; [done|]. unfold count_entries. simpl. lia. }
  induction tr as [|ev tr IH]; intros s Hs; simpl; [done|].
  by apply IH, step_read_once.
Qed.

Lemma scan_files_delete_logged P fails now files s f :
  (exists d, logs (scan_files P fails now files s) = logs s ++ d) /\
  (stat_file (scan_files P fails now files s) f = stat_file s f \/
   exists d, logs (scan_files P fails now files s) = logs s ++ d /\ LFileEvent f ∈ d).
Proof.
  revert s. induction files as [|g files IH]; intros s; simpl.
  { split; [exists []; by rewrite app_nil_r|]. by left. }
  destruct (scan_file_ok P fails now s g) as (_ & _ & _ & _ & _ & [d [Hl _]] & Hst).
  destruct (IH (scan_file P fails now s g)) as [[d' Hl'] Hs'].
  split; [exists (d ++ d'); by rewrite Hl', Hl, app_assoc|].
  assert (Hev : LFileEvent f ∈ d ->
            exists d0, logs (scan_files P fails now files (scan_file P fails now s g)) = logs s ++ d0 /\
                       LFileEvent f ∈ d0).
  { intros Hin. exists (d ++ d'). rewrite Hl', Hl, app_assoc. split; [done|]. set_solver. }
  destruct Hs' as [Hs'|[d2 [Hl2 Hin2]]].
  2: { right. exists (d ++ d2). rewrite Hl2, Hl, app_assoc. split; [done|]. set_solver. }
  rewrite Hs'.
  destruct (decide (g = f)) as [->|Hne].
  2: { left. by apply Hst. }
  destruct (decide (f ∈ processedFiles s)) as [Hf|Hf].
  { left. unfold scan_file. by rewrite bool_decide_true. }
  destruct (scan_file_outcomes P fails now s f Hf)
    as [->|[[_ [-> _]]|[_ [bd [Hl3 _]]]]]; [by left|by left|].
  right. apply Hev. rewrite Hl in Hl3. apply app_inv_head in Hl3. subst d. set_solver.
Qed.

(** X11: a poll tick deletes a spool file only after it has read it,
    decoded it and logged it as a file event (the step right before its
    broadcast): a file that fails in any way stays on disk. *)
Theorem poll_tick_deletes_only_announced_files P fails now s f r :
  stat_file s f = Some r -> stat_file (poll_tick P fails now s) f = None ->
  exists d, logs (poll_tick P fails now s) = logs s ++ d /\ LFileEvent f ∈ d.
Proof.
  intros Hs Hs'. unfold poll_tick in *. destruct (redisAvailable s); [congruence|].
  destruct (spool s) as [dir|] eqn:Hsp.
  2: { unfold stat_file in Hs. by rewrite Hsp in Hs. }
  destruct (scan_files_delete_logged P fails now (filter (fun f => is_event_file f = true) (map fst dir))
              (add_log LListDir s) f) as [_ [Heq|[d [Hl Hin]]]].
  - rewrite Heq in Hs'. change (stat_file (add_log LListDir s) f) with (stat_file s f) in Hs'.
    congruence.
  - rewrite Hl. exists (LListDir :: d). split; [simpl; by rewrite <- app_assoc|]. set_solver.
Qed.

(** ** The two deployment variants *)

Lemma broadcast_p0_loop_no_throw fails e rs cs w :
  (forall c, c ∈ cs -> state_of rs c = OPEN -> c ∉ fails) ->
  broadcast_p0_loop fails e rs cs w =
  inr (w ++ map (fun c => (c, e)) (filter (deliverable fails rs) cs)).
Proof.
  revert w. induction cs as [|c cs IH]; intros w Hc; simpl; [by rewrite app_nil_r|].
  rewrite filter_cons. case_decide as Hdv; unfold deliverable in Hdv.
  - destruct Hdv as [Ho Hf]. rewrite Ho, bool_decide_false by done.
    rewrite IH by set_solver. simpl. by rewrite <- app_assoc.
  - destruct (ReadyState_eqb (state_of rs c) OPEN) eqn:Ho.
    + exfalso. apply Hdv. split; [done|]. apply Hc; [set_solver|].
      revert Ho. by destruct (state_of rs c).
    + apply IH. set_solver.
Qed.

(** X12: when no [OPEN] registered socket's send throws, the p0 broadcast
    (without [try]) finishes normally and writes what the main broadcast
    writes, to the same sockets in the same order, whenever the main one
    gets past [`Event: ${event.event}`].  The two Redis callbacks then put
    the same messages on the wire for every message, and the p0 callback
    runs its [catch] exactly when the main callback logs a parse error
    and does nothing else. *)
Theorem p0_broadcast_agrees_without_throw P fails e m s :
  (forall c, c ∈ clients s -> state_of (ready s) c = OPEN -> c ∉ fails) ->
  (broadcast_throws e = false ->
   broadcast_p0 fails e (clients s) (ready s) (wire s) = inr (wire (broadcast fails e s))) /\
  (on_redis_message_p0 P fails m (clients s) (ready s) (wire s)).1 =
    wire (on_redis_message P fails m s) /\
  ((on_redis_message_p0 P fails m (clients s) (ready s) (wire s)).2 = true <->
   on_redis_message P fails m s = add_log (LRedisParseError m) s).
Proof.
  intros Hc.
  assert (Hb : forall e', broadcast_throws e' = false ->
            broadcast_p0 fails e' (clients s) (ready s) (wire s) = inr (wire (broadcast fails e' s))).
  { intros e' He. unfold broadcast_p0. rewrite broadcast_p0_loop_no_throw by done.
    destruct (broadcast_fields fails e' s) as (_ & _ & _ & _ & _ & _ & Hw & _).
    by rewrite Hw, targets_no_throw. }
  split; [by apply Hb|].
  unfold on_redis_message_p0, on_redis_message.
  destruct (P m) as [v|]; [|done].
  destruct (read_event_field v) eqn:Hr; [|done].
  assert (Hbt : broadcast_throws v = event_to_string_throws v)
    by (unfold broadcast_throws; by rewrite Hr).
  rewrite Hbt. destruct (event_to_string_throws v) eqn:Ht; [done|].
  rewrite (Hb v) by (by rewrite Hbt). simpl. split; [done|].
  split; [done|]. intros Heq. exfalso.
  destruct (broadcast_summary_logged fails v s) as (d & a & b & Hl & Hin); [by rewrite Hbt|].
  apply (f_equal logs) in Heq. rewrite Hl in Heq. simpl in Heq.
  apply app_inv_head in Heq. subst d. set_solver.
Qed.

(** ** Witnesses *)

Lemma poll_tick_gated_when_available_witness :
  let s := mkState [] ∅ [] true RAwaitSubscribe ∅
             (Some [("tournament_1.json", mkFile 0 (Some "ev_a") true)]) [] in
  redisAvailable s = true /\ poll_tick demo_parse [] 1000%Z s = s.
Proof.
  cbv zeta. split; [reflexivity|].
  apply poll_tick_gated_when_available. reflexivity.
Defined.

Lemma broadcast_keeps_failed_connection_witness :
  let s := run demo_parse [EConnect 1%nat; EConnect 2%nat] (init false None) in
  let s' := run demo_parse [ETick 0%Z []; EConnect 3%nat] (broadcast [1%nat] envA s) in
  1%nat ∈ [1%nat] /\ 1%nat ∈ clients s /\
  received 1 (wire (broadcast [1%nat] envA s)) = received 1 (wire s) /\
  1%nat ∈ clients s' /\
  exists l, received 1 (wire (broadcast [] envB s')) = received 1 (wire s') ++ l /\ envB ∈ l.
Proof.
  cbv zeta. split; [set_solver|]. split; [in_by_compute|].
  destruct (broadcast_keeps_failed_connection demo_parse [1%nat] envA
              (run demo_parse [EConnect 1%nat; EConnect 2%nat] (init false None)) 1%nat)
    as (_ & Hr & H); [set_solver|].
  split; [exact Hr|].
  destruct (H [ETick 0%Z []; EConnect 3%nat]) as [Hin Hd]; [in_by_compute|reflexivity|].
  split; [exact Hin|]. apply Hd; [reflexivity|vm_compute; reflexivity|set_solver].
Defined.

Lemma redis_flag_only_after_both_connects_witness :
  let s1 := run demo_parse [ERedis (RClientConnected true)] (init true None) in
  let s1' := step demo_parse (ERedis (RSubscriberConnected true)) s1 in
  let s2 := run demo_parse [ERedis (RClientConnected true); ERedis (RSubscriberConnected true)]
              (init true None) in
  redisPc s1 = RAwaitSubscriber /\
  (redisAvailable s1' = true /\ redisPc s1' = RAwaitSubscribe) /\
  redisPc s2 = RAwaitSubscribe /\
  redisAvailable (step demo_parse (ERedis (RSubscribeSettled false)) s2) = false.
Proof.
  cbv zeta. split; [reflexivity|]. split.
  - apply (proj1 (redis_flag_only_after_both_connects demo_parse true None
                    [ERedis (RClientConnected true)])).
    reflexivity.
  - split; [reflexivity|].
    apply (proj2 (proj2 (redis_flag_only_after_both_connects demo_parse true None
                  [ERedis (RClientConnected true); ERedis (RSubscriberConnected true)]))).
    reflexivity.
Defined.

Lemma first_message_is_greeting_witness :
  let pre := [EConnect 2%nat; ETick 0%Z []; ERedisMessage "ev_a" []] in
  let post := [ERedisMessage "ev_b" []; EClose 1%nat] in
  forallb (fun ev => negb (touches 1 ev)) pre = true /\
  head (received 1 (wire (run demo_parse (pre ++ EConnect 1%nat :: post)
                            (init false (Some []))))) = Some connected_envelope.
Proof.
  cbv zeta. split; [reflexivity|].
  apply first_message_is_greeting. reflexivity.
Defined.

Lemma undecodable_spool_file_dropped_once_witness :
  let r := mkFile 0 (Some "garbage") true in
  let s := init false (Some [("tournament_3.json", r)]) in
  ("tournament_3.json" ∉ processedFiles s) /\ stat_file s "tournament_3.json" = Some r /\
  (50 <= 1000 - mtimeMs r)%Z /\ contents r = Some "garbage" /\
  (demo_parse "garbage" = None \/ demo_parse "garbage" = Some JNull) /\
  (let s' := scan_file demo_parse [] 1000%Z s "tournament_3.json" in
   s' = add_log (LFileError "tournament_3.json")
          (add_log (LReadFile "tournament_3.json")
             (set_processed ({["tournament_3.json"]} ∪ processedFiles s) s)) /\
   (forall rest, scan_files demo_parse [] 1000%Z ("tournament_3.json" :: rest) s =
                 scan_files demo_parse [] 1000%Z rest s') /\
   (forall tr, "tournament_3.json" ∈ processedFiles (run demo_parse tr s') /\
      exists d, logs (run demo_parse tr s') = logs s' ++ d /\
        (LReadFile "tournament_3.json" ∉ d) /\ (LFileEvent "tournament_3.json" ∉ d) /\
        (LUnlinkFile "tournament_3.json" ∉ d))).
Proof.
  cbv zeta. split; [set_solver|]. split; [reflexivity|]. split; [simpl; lia|].
  split; [reflexivity|]. split; [left; reflexivity|].
  apply (undecodable_spool_file_dropped_once demo_parse [] 1000%Z _ _
           (mkFile 0 (Some "garbage") true) "garbage").
  - set_solver.
  - reflexivity.
  - simpl; lia.
  - reflexivity.
  - left; reflexivity.
Defined.

Lemma young_new_spool_file_retried_witness :
  let f := "tournament_2.json" in
  let r := mkFile 990 (Some "ev_b") true in
  let s := init false (Some [(f, r)]) in
  let tr := [ETick 1000%Z []; EConnect 1%nat; EWrite "tournament_9.json" r; ETick 1030%Z []] in
  let s1 := run demo_parse tr s in
  let s2 := poll_tick demo_parse [] 2000%Z s1 in
  is_event_file f = true /\ (f ∉ processedFiles s) /\ stat_file s f = Some r /\
  before_aging demo_parse f r tr s = true /\
  (f ∉ processedFiles s1) /\ stat_file s1 f = Some r /\
  exists d, logs s2 = logs s1 ++ d /\ LReadFile f ∈ d /\ LFileEvent f ∈ d /\
    (exists a b, LBroadcast envB a b ∈ d) /\ LUnlinkFile f ∈ d /\ stat_file s2 f = None.
Proof.
  cbv zeta. split; [reflexivity|]. split; [set_solver|]. split; [reflexivity|].
  split; [vm_compute; reflexivity|].
  destruct (young_new_spool_file_retried demo_parse
              (init false (Some [("tournament_2.json", mkFile 990 (Some "ev_b") true)]))
              [ETick 1000%Z []; EConnect 1%nat;
               EWrite "tournament_9.json" (mkFile 990 (Some "ev_b") true); ETick 1030%Z []]
              "tournament_2.json" (mkFile 990 (Some "ev_b") true) [] 2000%Z)
    as ((Hf1 & Hs1 & _) & H & _).
  - reflexivity.
  - set_solver.
  - reflexivity.
  - vm_compute; reflexivity.
  - split; [exact Hf1|]. split; [exact Hs1|].
    destruct H as (d & Hl & Hr & Hd); [vm_compute; reflexivity|simpl; lia|].
    destruct (Hd "ev_b" envB) as (He & Hb); [reflexivity|reflexivity|discriminate|].
    destruct Hb as (Hab & Hu); [reflexivity|].
    destruct Hu as (Hun & Hst); [reflexivity|].
    exists d. repeat split; assumption.
Defined.

Lemma reconnect_delay_capped_witness :
  (0 <= 2)%Z /\ (2 <= 7)%Z /\
  ((0 <= reconnectStrategy 2 <= 30000)%Z /\
   (reconnectStrategy 2 <= reconnectStrategy 7)%Z /\
   ((2 <= 6)%Z -> reconnectStrategy 2 = (2 * 5000)%Z) /\
   ((6 <= 2)%Z -> reconnectStrategy 2 = 30000%Z)).
Proof.
  split; [lia|]. split; [lia|].
  apply reconnect_delay_capped; lia.
Defined.

Lemma broadcast_summary_counts_witness :
  let s := run demo_parse [EConnect 1%nat; EConnect 2%nat] (init false None) in
  let bad := JObj [("event", JObj [("toString", JNull)])] in
  broadcast_throws bad = true /\ broadcast [] bad s = s /\
  broadcast_throws envA = false /\
  exists lg sent failed,
    logs (broadcast [2%nat] envA s) = lg ++ [LBroadcast envA sent failed] /\
    length (wire (broadcast [2%nat] envA s)) = length (wire s) + sent /\
    sent + failed = length (clients s).
Proof.
  cbv zeta. split; [reflexivity|]. split.
  { apply (proj1 (broadcast_summary_counts [] (JObj [("event", JObj [("toString", JNull)])])
                    (run demo_parse [EConnect 1%nat; EConnect 2%nat] (init false None)))).
    reflexivity. }
  split; [reflexivity|].
  apply (proj2 (broadcast_summary_counts [2%nat] envA
                  (run demo_parse [EConnect 1%nat; EConnect 2%nat] (init false None)))).
  reflexivity.
Defined.

Lemma broadcast_skips_unready_socket_witness :
  let s := run demo_parse [EConnect 1%nat; EConnect 2%nat; EClosing 2%nat] (init false None) in
  2%nat ∈ clients s /\ state_of (ready s) 2 <> OPEN /\ broadcast_throws envA = false /\
  (received 2 (wire (broadcast [] envA s)) = received 2 (wire s) /\
   exists d, logs (broadcast [] envA s) = logs s ++ d /\ LNotReady 2 ∈ d).
Proof.
  cbv zeta. split; [in_by_compute|].
  split; [vm_compute; discriminate|]. split; [reflexivity|].
  destruct (broadcast_skips_unready_socket [] envA
              (run demo_parse [EConnect 1%nat; EConnect 2%nat; EClosing 2%nat] (init false None)) 2%nat)
    as [Hr Hl].
  - in_by_compute.
  - vm_compute; discriminate.
  - split; [exact Hr|]. apply Hl. reflexivity.
Defined.

Lemma reachable_broadcast_delivers_once_witness :
  let s := run demo_parse [EConnect 1%nat; EConnect 2%nat] (init false None) in
  broadcast_throws envA = false /\
  1%nat ∈ clients s /\ state_of (ready s) 1 = OPEN /\ (1%nat ∉ [2%nat]) /\
  received 1 (wire (broadcast [2%nat] envA s)) = received 1 (wire s) ++ [envA].
Proof.
  cbv zeta. split; [reflexivity|]. split; [in_by_compute|].
  split; [reflexivity|]. split; [set_solver|].
  apply (reachable_broadcast_delivers_once demo_parse false None
           [EConnect 1%nat; EConnect 2%nat] [2%nat] envA 1%nat).
  - reflexivity.
  - in_by_compute.
  - reflexivity.
  - set_solver.
Defined.

Lemma closed_socket_gets_nothing_witness :
  let s := run demo_parse [EConnect 1%nat]
             (init false (Some [("tournament_1.json", mkFile 0 (Some "ev_a") true)])) in
  let tr := [ETick 1000%Z []; EConnect 2%nat] in
  forallb (no_connect 1) tr = true /\
  received 1 (wire (run demo_parse (EClose 1%nat :: tr) s)) = received 1 (wire s) /\
  received 1 (wire (run demo_parse (ESocketError 1%nat :: tr) s)) = received 1 (wire s).
Proof.
  cbv zeta. split; [reflexivity|].
  apply closed_socket_gets_nothing. reflexivity.
Defined.

Lemma redis_flag_never_recovers_witness :
  let s := run demo_parse [ERedis (RClientConnected true); ERedis (RSubscriberConnected true);
                           ERedis (RSubscribeSettled true); ERedis RClientError]
             (init true None) in
  let tr := [ERedis (RClientConnected true); ERedis (RSubscriberConnected true);
             ERedis (RSubscribeSettled true); ETick 1000%Z []] in
  redisAvailable s = false /\
  (redisPc s = RAwaitSubscribe \/ redisPc s = RSubscribed \/ redisPc s = RFailed) /\
  redisAvailable (run demo_parse tr s) = false.
Proof.
  cbv zeta. split; [reflexivity|]. split; [right; left; reflexivity|].
  apply redis_flag_never_recovers.
  - reflexivity.
  - right; left; reflexivity.
Defined.

Lemma non_event_file_untouched_witness :
  let dir := [("other.txt", mkFile 0 (Some "ev_a") true)] in
  let s := run demo_parse [ETick 1000%Z []; ETick 2000%Z []] (init false (Some dir)) in
  is_event_file "other.txt" = false /\
  ("other.txt" ∉ processedFiles s) /\ forall x, x ∈ logs s -> ~ file_entry "other.txt" x.
Proof.
  cbv zeta. split; [reflexivity|].
  apply (non_event_file_untouched demo_parse false (Some [("other.txt", mkFile 0 (Some "ev_a") true)])
           [ETick 1000%Z []; ETick 2000%Z []] "other.txt").
  reflexivity.
Defined.

Lemma poll_tick_deletes_only_announced_files_witness :
  let r := mkFile 0 (Some "ev_a") true in
  let s := init false (Some [("tournament_1.json", r)]) in
  stat_file s "tournament_1.json" = Some r /\
  stat_file (poll_tick demo_parse [] 1000%Z s) "tournament_1.json" = None /\
  exists d, logs (poll_tick demo_parse [] 1000%Z s) = logs s ++ d /\
            LFileEvent "tournament_1.json" ∈ d.
Proof.
  cbv zeta. split; [reflexivity|]. split; [vm_compute; reflexivity|].
  apply (poll_tick_deletes_only_announced_files demo_parse [] 1000%Z _ _ (mkFile 0 (Some "ev_a") true)).
  - reflexivity.
  - vm_compute; reflexivity.
Defined.

Lemma p0_broadcast_agrees_without_throw_witness :
  let s := run demo_parse [EConnect 1%nat; EConnect 2%nat; EClosing 2%nat] (init false None) in
  (forall c, c ∈ clients s -> state_of (ready s) c = OPEN -> c ∉ [2%nat]) /\
  broadcast_p0 [2%nat] envA (clients s) (ready s) (wire s) = inr (wire (broadcast [2%nat] envA s)) /\
  (on_redis_message_p0 demo_parse [2%nat] "ev_a" (clients s) (ready s) (wire s)).1 =
    wire (on_redis_message demo_parse [2%nat] "ev_a" s) /\
  ((on_redis_message_p0 demo_parse [2%nat] "garbage" (clients s) (ready s) (wire s)).2 = true <->
   on_redis_message demo_parse [2%nat] "garbage" s = add_log (LRedisParseError "garbage") s).
Proof.
  cbv zeta.
  assert (H : forall c, c ∈ clients (run demo_parse [EConnect 1%nat; EConnect 2%nat; EClosing 2%nat]
                                       (init false None)) ->
              state_of (ready (run demo_parse [EConnect 1%nat; EConnect 2%nat; EClosing 2%nat]
                                 (init false None))) c = OPEN -> c ∉ [2%nat]).
  { intros c Hc Ho. vm_compute in Hc.
    apply elem_of_cons in Hc as [->|Hc]; [set_solver|].
    apply list_elem_of_singleton in Hc as ->. vm_compute in Ho. discriminate. }
  split; [exact H|].
  destruct (p0_broadcast_agrees_without_throw demo_parse [2%nat] envA "ev_a" _ H) as (Hb & Hw & _).
  destruct (p0_broadcast_agrees_without_throw demo_parse [2%nat] envA "garbage" _ H) as (_ & _ & Hc).
  split; [apply Hb; reflexivity|]. split; [exact Hw|exact Hc].
Defined.
